(** * Verification of the Clash proxy-list extractor

    A shallow embedding of [parseClashNodes] from
    [src/services/clashService.ts].  JavaScript strings are sequences of
    UTF-16 code units; a code unit is a number of type [N] and a string is a
    [list N].  The library functions the parser calls ([trim], [split],
    [startsWith], [endsWith], [includes], [substring], [Number], [isNaN],
    [String.prototype.match] and [String.prototype.split] on a regular
    expression) are embedded after ECMA-262, the two regular expressions as
    terms of a small backtracking matcher.  A property access on [null] or
    [undefined] raises a [TypeError]; the parser lives in an error monad so
    that the absence of such an exception is a theorem and not a convention. *)

From Stdlib Require Import ZArith NArith List Ascii String Bool Lia.
From stdpp Require Import gmap list.
Import ListNotations.

Local Open Scope N_scope.

(** ** JavaScript strings *)

Module JsString.

Abbreviation jsstring := (list N).

(** The code units of an ASCII literal. *)
Definition js (s : string) : jsstring :=
  List.map N_of_ascii (list_ascii_of_string s).

Definition DQUOTE : N := 34.
Definition SQUOTE : N := 39.
Definition LF : N := 10.
Definition COLON : N := 58.
Definition COMMA : N := 44.

(** [WhiteSpace] and [LineTerminator] of ECMA-262: what [trim] strips,
    what [\s] matches and what [Number] skips around a literal. *)
Definition isWhiteSpace (c : N) : bool :=
  match c with
  | 9 | 10 | 11 | 12 | 13 | 32 | 160 | 5760
  | 8232 | 8233 | 8239 | 8287 | 12288 | 65279 => true
  | _ => (8192 <=? c) && (c <=? 8202)
  end.

Fixpoint trimStart (s : jsstring) : jsstring :=
  match s with
  | c :: s' => if isWhiteSpace c then trimStart s' else s
  | [] => []
  end.

Definition trimEnd (s : jsstring) : jsstring := rev (trimStart (rev s)).

Definition trim (s : jsstring) : jsstring := trimEnd (trimStart s).

Definition eqb (a b : jsstring) : bool := bool_decide (a = b).

Fixpoint startsWith (p s : jsstring) : bool :=
  match p, s with
  | [], _ => true
  | a :: p', b :: s' => (a =? b) && startsWith p' s'
  | _ :: _, [] => false
  end.

Definition endsWith (p s : jsstring) : bool := startsWith (rev p) (rev s).

Fixpoint includes (p s : jsstring) : bool :=
  startsWith p s ||
  match s with
  | [] => false
  | _ :: s' => includes p s'
  end.

(** [s.substring(start, end)]: both indices are clamped to [0, length] and
    swapped when [start > end]. *)
Definition substring (s : jsstring) (start end_ : Z) : jsstring :=
  let len := Z.of_nat (length s) in
  let a := Z.min (Z.max start 0) len in
  let b := Z.min (Z.max end_ 0) len in
  let from := Z.to_nat (Z.min a b) in
  let to := Z.to_nat (Z.max a b) in
  firstn (to - from) (skipn from s).

(** [s.split(sep)] for a string separator.  [skip] counts the code units of
    the occurrence of [sep] found last that are still to be passed over,
    [cur] is the piece being collected. *)
Fixpoint splitLoop (sep : jsstring) (skip : nat) (cur s : jsstring)
  : list jsstring :=
  match s with
  | [] => [cur]
  | c :: s' =>
      match skip with
      | S k => splitLoop sep k cur s'
      | O =>
          if startsWith sep s
          then cur :: splitLoop sep (length sep - 1) [] s'
          else splitLoop sep 0 (cur ++ [c]) s'
      end
  end.

Definition split (sep s : jsstring) : list jsstring :=
  match sep with
  | [] => List.map (fun c => [c]) s
  | _ :: _ => splitLoop sep 0 [] s
  end.

(** [s.split(sep, limit)]: the pieces are those of [split], cut off after
    the first [limit] of them; what follows is discarded. *)
Definition splitLimit (sep s : jsstring) (limit : nat) : list jsstring :=
  firstn limit (split sep s).

End JsString.

Import JsString.

(** ** JavaScript numbers, as far as [Number(string)] produces them *)

Module JsNumber.

(** The result of [Number(s)].  A finite result is kept as the exact
    mathematical value [mantissa * 10 ^ exponent] of the literal (with its
    sign, so that [-0] is told from [0]); the rounding of that value to a
    double is not modelled.  The two agree on the integers up to [2 ^ 53];
    above, the double is the nearest representable value, and [Infinity]
    from about 309 digits on, so what is stated about the value stored is
    stated for integers up to [2 ^ 53] only.  Whether the result is [NaN]
    does not depend on the rounding. *)
Inductive number :=
| NaN
| Infinity (negative : bool)
| Finite (negative : bool) (mantissa : N) (exponent : Z).

Definition isNaN (n : number) : bool :=
  match n with NaN => true | _ => false end.

Definition isDigit (c : N) : bool := (48 <=? c) && (c <=? 57).

Definition digitValue (base : N) (c : N) : option N :=
  let v :=
    if (48 <=? c) && (c <=? 57) then Some (c - 48)
    else if (97 <=? c) && (c <=? 102) then Some (c - 87)
    else if (65 <=? c) && (c <=? 70) then Some (c - 55)
    else None in
  match v with
  | Some d => if d <? base then Some d else None
  | None => None
  end.

(** The value of a non-empty string made of digits of [base] only. *)
Fixpoint digitsFrom (base acc : N) (s : jsstring) : option N :=
  match s with
  | [] => Some acc
  | c :: s' =>
      match digitValue base c with
      | Some d => digitsFrom base (base * acc + d) s'
      | None => None
      end
  end.

Definition digits (base : N) (s : jsstring) : option N :=
  match s with
  | [] => None
  | _ :: _ => digitsFrom base 0 s
  end.

(** The longest prefix of decimal digits, and what follows it. *)
Fixpoint spanDigits (s : jsstring) : jsstring * jsstring :=
  match s with
  | c :: s' =>
      if isDigit c
      then let '(ds, r) := spanDigits s' in (c :: ds, r)
      else ([], s)
  | [] => ([], [])
  end.

Definition decimalValue (ds : jsstring) : N :=
  fold_left (fun acc c => 10 * acc + (c - 48)) ds 0.

(** [ExponentPart_opt] up to the end of the input. *)
Definition exponentPart (s : jsstring) : option Z :=
  match s with
  | [] => Some 0%Z
  | c :: s' =>
      if (c =? 101) || (c =? 69) then
        let '(neg, ds) :=
          match s' with
          | 43 :: d => (false, d)
          | 45 :: d => (true, d)
          | _ => (false, s')
          end in
        match digits 10 ds with
        | Some e => Some (if neg then (- Z.of_N e)%Z else Z.of_N e)
        | None => None
        end
      else None
  end.

(** [StrUnsignedDecimalLiteral]. *)
Definition unsignedDecimal (neg : bool) (s : jsstring) : number :=
  if eqb s (js "Infinity") then Infinity neg
  else
    let '(ip, r) := spanDigits s in
    let '(fp, r') :=
      match r with
      | 46 :: r1 => spanDigits r1
      | _ => ([], r)
      end in
    match ip, fp with
    | [], [] => NaN
    | _, _ =>
        match exponentPart r' with
        | Some e =>
            Finite neg (decimalValue (ip ++ fp)) (e - Z.of_nat (length fp))
        | None => NaN
        end
    end.

(** [StrNumericLiteral]: a signed decimal literal or an unsigned
    hexadecimal, octal or binary integer literal. *)
Definition numericLiteral (s : jsstring) : number :=
  let radix (base : N) (ds : jsstring) :=
    match digits base ds with
    | Some v => Finite false v 0
    | None => NaN
    end in
  match s with
  | 48 :: 120 :: ds | 48 :: 88 :: ds => radix 16 ds
  | 48 :: 111 :: ds | 48 :: 79 :: ds => radix 8 ds
  | 48 :: 98 :: ds | 48 :: 66 :: ds => radix 2 ds
  | 43 :: s' => unsignedDecimal false s'
  | 45 :: s' => unsignedDecimal true s'
  | _ => unsignedDecimal false s
  end.

(** [Number(s)] on a string: surrounding white space is skipped, the empty
    (or all-blank) string is [0], everything that is not a
    [StrNumericLiteral] is [NaN]. *)
Definition Number (s : jsstring) : number :=
  match trim s with
  | [] => Finite false 0 0
  | t => numericLiteral t
  end.

End JsNumber.

Import JsNumber.

(** ** Regular expressions

    The fragment of ECMA-262 patterns the parser uses, with the backtracking
    semantics of the standard: a matcher takes the state reached so far and a
    continuation for the rest of the pattern, and the first alternative that
    lets the continuation succeed wins. *)

Module RegExp.

Inductive regex :=
| Empty
| Char (c : N)                        (* a literal or escaped character *)
| Class (negated : bool) (cs : list N)(* [...] and [^...] *)
| Space                               (* \s *)
| Bol                                 (* ^ *)
| Eol                                 (* $ *)
| Seq (r1 r2 : regex)
| Alt (r1 r2 : regex)                 (* r1|r2 *)
| Star (r : regex)                    (* r*, greedy *)
| Plus (r : regex)                    (* r+, greedy *)
| Group (i : nat) (r : regex)         (* the i-th capturing ( ) *)
| Lookahead (r : regex).              (* (?=r) *)

(** A non-capturing group [(?:r)] is [r] itself. *)
Definition cat (rs : list regex) : regex := foldr Seq Empty rs.

(** The state of a match: the index reached in the input, the input from
    there on, and the captures, [captures !! (i - 1)] for group [i]. *)
Record MatchState := {
  endIndex : nat;
  rest : jsstring;
  captures : list (option jsstring)
}.

Definition Continuation := MatchState -> option MatchState.

Definition advance (x : MatchState) (s' : jsstring) : MatchState :=
  {| endIndex := S (endIndex x); rest := s'; captures := captures x |}.

(** One character that satisfies [p]. *)
Definition charMatcher (p : N -> bool) (x : MatchState) (k : Continuation)
  : option MatchState :=
  match rest x with
  | c :: s' => if p c then k (advance x s') else None
  | [] => None
  end.

Definition inClass (negated : bool) (cs : list N) (c : N) : bool :=
  xorb negated (existsb (N.eqb c) cs).

Fixpoint groupsOf (r : regex) : list nat :=
  match r with
  | Seq r1 r2 | Alt r1 r2 => groupsOf r1 ++ groupsOf r2
  | Star r' | Plus r' | Lookahead r' => groupsOf r'
  | Group i r' => i :: groupsOf r'
  | _ => []
  end.

Definition clearCaptures (gs : list nat) (x : MatchState) : MatchState :=
  {| endIndex := endIndex x; rest := rest x;
     captures := foldr (fun i cs => <[pred i := None]> cs) (captures x) gs |}.

(** [RepeatMatcher] with [min = 0] and no upper bound, greedy: try one more
    iteration of [m], from a state with the captures of the body cleared,
    and refuse an iteration that matched the empty string; if that fails,
    go on with the continuation.  An accepted iteration consumes at least
    one character, so [S (length (rest x))] rounds are never used up. *)
Fixpoint repeatMatcher (m : MatchState -> Continuation -> option MatchState)
  (gs : list nat) (rounds : nat) (x : MatchState) (k : Continuation)
  : option MatchState :=
  match rounds with
  | O => k x
  | S n =>
      match m (clearCaptures gs x)
              (fun y => if (endIndex y =? endIndex x)%nat then None
                        else repeatMatcher m gs n y k) with
      | Some z => Some z
      | None => k x
      end
  end.

Fixpoint matcher (r : regex) (x : MatchState) (k : Continuation)
  : option MatchState :=
  match r with
  | Empty => k x
  | Char c => charMatcher (N.eqb c) x k
  | Class negated cs => charMatcher (inClass negated cs) x k
  | Space => charMatcher isWhiteSpace x k
  | Bol => if (endIndex x =? 0)%nat then k x else None
  | Eol => match rest x with [] => k x | _ :: _ => None end
  | Seq r1 r2 => matcher r1 x (fun y => matcher r2 y k)
  | Alt r1 r2 =>
      match matcher r1 x k with
      | Some z => Some z
      | None => matcher r2 x k
      end
  | Star r' =>
      repeatMatcher (matcher r') (groupsOf r') (S (length (rest x))) x k
  | Plus r' =>
      matcher r' (clearCaptures (groupsOf r') x)
        (fun y =>
           repeatMatcher (matcher r') (groupsOf r') (S (length (rest y))) y k)
  | Group i r' =>
      matcher r' x
        (fun y =>
           k {| endIndex := endIndex y; rest := rest y;
                captures :=
                  <[pred i := Some (firstn (endIndex y - endIndex x) (rest x))]>
                    (captures y) |})
  | Lookahead r' =>
      match matcher r' x Some with
      | Some y =>
          k {| endIndex := endIndex x; rest := rest x;
               captures := captures y |}
      | None => None
      end
  end.

(** A pattern with the number of its capturing groups. *)
Record RegExp := { pattern : regex; nCaptures : nat }.

Definition matchAt (re : RegExp) (q : nat) (s : jsstring)
  : option MatchState :=
  matcher (pattern re)
    {| endIndex := q; rest := s; captures := replicate (nCaptures re) None |}
    Some.

(** The array a successful match returns: element 0 is the matched text,
    element [i] the capture of group [i] or [undefined]. *)
Definition MatchArray := list (option jsstring).

(** [RegExpBuiltinExec] for a pattern without the [g] and [y] flags: the
    match is tried at index 0, then 1, and so on up to the length of the
    input; [s] is the input from index [i] on. *)
Fixpoint execFrom (re : RegExp) (i : nat) (s : jsstring)
  : option MatchArray :=
  match matchAt re i s with
  | Some y => Some (Some (firstn (endIndex y - i) s) :: captures y)
  | None =>
      match s with
      | [] => None
      | _ :: s' => execFrom re (S i) s'
      end
  end.

(** [s.match(re)] for a pattern without flags; [None] is [null]. *)
Definition match_ (s : jsstring) (re : RegExp) : option MatchArray :=
  execFrom re 0 s.

(** [s.split(re)] for a pattern without capturing groups
    ([RegExp.prototype[Symbol.split]]).  [q] is the index of the head of
    [s], [cur] the piece collected since the end [p] of the last separator,
    [skip] the number of characters of that separator still ahead.  A
    match at [q] that ends at [e] is a separator unless [e = p]. *)
Fixpoint splitFrom (re : RegExp) (q skip : nat) (cur s : jsstring)
  : list jsstring :=
  match s with
  | [] => [cur]
  | c :: s' =>
      match skip with
      | S k => splitFrom re (S q) k cur s'
      | O =>
          match matchAt re q s with
          | None => splitFrom re (S q) 0 (cur ++ [c]) s'
          | Some y =>
              let e := Nat.min (endIndex y) (q + length s) in
              if (e =? q)%nat then
                match cur with
                | [] => splitFrom re (S q) 0 [c] s'
                | _ :: _ => cur :: splitFrom re (S q) 0 [c] s'
                end
              else cur :: splitFrom re (S q) (e - q - 1) [] s'
          end
      end
  end.

Definition split (s : jsstring) (re : RegExp) : list jsstring :=
  match s with
  | [] => match matchAt re 0 [] with Some _ => [] | None => [[]] end
  | _ :: _ => splitFrom re 0 0 [] s
  end.

End RegExp.

(** ** Exceptions *)

Module Exc.

(** A computation returns a value or throws.  The only exception the parser
    could raise is the [TypeError] of a property access or method call on
    [null] or [undefined]. *)
Inductive result (A : Type) :=
| Ok (a : A)
| TypeError.
Arguments Ok {A} a.
Arguments TypeError {A}.

Definition bind {A B : Type} (r : result A) (f : A -> result B) : result B :=
  match r with
  | Ok a => f a
  | TypeError => TypeError
  end.

(** [for (const x of xs) body], with the loop variables in [acc]. *)
Fixpoint forOf {A S : Type} (body : S -> A -> result S) (xs : list A)
  (acc : S) : result S :=
  match xs with
  | [] => Ok acc
  | x :: xs' => bind (body acc x) (forOf body xs')
  end.

End Exc.

Import Exc.

Notation "'let*' x ':=' e 'in' k" := (bind e (fun x => k))
  (at level 10, x name, e at level 100, k at level 200).

(** ** The parser of [src/services/clashService.ts] *)

Module ClashService.

Import RegExp.

(** [string | number | boolean], the values of a property. *)
Inductive jsvalue :=
| VString (s : jsstring)
| VNumber (n : number)
| VBoolean (b : bool).

(** [ToBoolean]. *)
Definition truthy (v : jsvalue) : bool :=
  match v with
  | VString s => negb (eqb s [])
  | VNumber NaN => false
  | VNumber (Infinity _) => true
  | VNumber (Finite _ m _) => negb (m =? 0)
  | VBoolean b => b
  end.

(** The object [props] (and a [ClashNode], which is [props] under a type
    cast): a finite map from property names to values. *)
Abbreviation Props := (gmap (list N) jsvalue).

(** [props[key]], [None] for [undefined].  The prototype of [props] is
    [Object.prototype], which has none of the properties [name], [type],
    [server] and [port] the parser reads. *)
Definition getProp (props : Props) (key : jsstring) : option jsvalue :=
  props !! key.

(** [props[key] = v].  On an object created by [{}] the key [__proto__]
    is the accessor of [Object.prototype], whose setter ignores a value
    that is neither an object nor [null]; every other key becomes or
    overwrites an own property. *)
Definition setProp (props : Props) (key : jsstring) (v : jsvalue) : Props :=
  if eqb key (js "__proto__") then props else <[key := v]> props.

(** [ToBoolean] of a property that may be [undefined]. *)
Definition truthyProp (o : option jsvalue) : bool :=
  match o with
  | Some v => truthy v
  | None => false
  end.

Definition isDefined (o : option jsvalue) : bool :=
  match o with
  | Some _ => true
  | None => false
  end.

(** [/^- \{\s*([^}]+)\s*\}$/] *)
Definition nodePattern : RegExp :=
  {| pattern :=
       cat [Bol; Char 45; Char 32; Char 123; Star Space;
            Group 1 (Plus (Class true [125]));
            Star Space; Char 125; Eol];
     nCaptures := 1 |}.

(** The class of every character but the two quote characters. *)
Definition notQuote : regex := Class true [DQUOTE; SQUOTE].

(** The separator of [propertiesString.split]:
      , \s* (?= (?: A | B )* N* $ )
    where N is the class above, A is N* D N* D N* with D the double-quote
    character, and B is N* S [^S]* S N* with S the single-quote character
    (the source writes the quoted middle of A and of B in a (?: ) group of
    its own). *)
Definition pairSeparator : RegExp :=
  {| pattern :=
       cat [Char COMMA; Star Space;
            Lookahead
              (cat [Star
                      (Alt
                         (cat [Star notQuote;
                               Char DQUOTE; Star notQuote; Char DQUOTE;
                               Star notQuote])
                         (cat [Star notQuote;
                               Char SQUOTE; Star (Class true [SQUOTE]);
                               Char SQUOTE;
                               Star notQuote]));
                    Star notQuote; Eol])];
     nCaptures := 0 |}.

(** [a[i]] on the result of [match]: a [TypeError] on [null], [undefined]
    past the end of the array. *)
Definition index (a : option MatchArray) (i : nat)
  : result (option jsstring) :=
  match a with
  | Some arr => Ok (mjoin (arr !! i))
  | None => TypeError
  end.

(** [a[i].trim()] on an array of strings. *)
Definition trimAt (a : list jsstring) (i : nat) : result jsstring :=
  match a !! i with
  | Some s => Ok (trim s)
  | None => TypeError
  end.

(** [s.split(re)] on a value that may be [undefined]. *)
Definition splitOf (s : option jsstring) (re : RegExp)
  : result (list jsstring) :=
  match s with
  | Some s' => Ok (RegExp.split s' re)
  | None => TypeError
  end.

(** Remove quotes if present (single or double). *)
Definition stripQuotes (value : jsstring) : jsstring :=
  if (startsWith [DQUOTE] value && endsWith [DQUOTE] value)
     || (startsWith [SQUOTE] value && endsWith [SQUOTE] value)
  then substring value 1 (Z.of_nat (length value) - 1)
  else value.

(** Type conversion for common types. *)
Definition coerce (key value : jsstring) : jsvalue :=
  if eqb key (js "port") && negb (isNaN (Number value))
  then VNumber (Number value)
  else if eqb value (js "true") then VBoolean true
  else if eqb value (js "false") then VBoolean false
  else VString value.

(** The body of [for (const pair of pairs)]. *)
Definition parsePair (props : Props) (pair : jsstring) : result Props :=
  let parts := splitLimit [COLON] pair 2 in
  if (length parts =? 2)%nat then
    let* key := trimAt parts 0 in
    let* value := trimAt parts 1 in
    let value := stripQuotes value in
    Ok (setProp props key (coerce key value))
  else Ok props.

(** The properties of a record body: the pairs, split and folded into a
    fresh object. *)
Definition parseProps (propertiesString : option jsstring) : result Props :=
  let* pairs := splitOf propertiesString pairSeparator in
  forOf parsePair pairs (∅ : Props).

(** Ensure minimum required fields for a ClashNode are present. *)
Definition hasRequiredFields (props : Props) : bool :=
  truthyProp (getProp props (js "name"))
  && truthyProp (getProp props (js "type"))
  && truthyProp (getProp props (js "server"))
  && isDefined (getProp props (js "port")).

(** The variables of the scan: the result array, the section flag, and
    what [console.warn] has printed (the properties and the line of each
    skipped record). *)
Record ScanState := {
  nodes : list Props;
  inProxiesSection : bool;
  console : list (Props * jsstring)
}.

Definition setSection (st : ScanState) (b : bool) : ScanState :=
  {| nodes := nodes st; inProxiesSection := b; console := console st |}.

Definition push (st : ScanState) (props : Props) : ScanState :=
  {| nodes := nodes st ++ [props];
     inProxiesSection := inProxiesSection st;
     console := console st |}.

Definition warn (st : ScanState) (props : Props) (trimmedLine : jsstring)
  : ScanState :=
  {| nodes := nodes st;
     inProxiesSection := inProxiesSection st;
     console := console st ++ [(props, trimmedLine)] |}.

(** The heuristic that ends the [proxies] section. *)
Definition leavesSection (trimmedLine : jsstring) : bool :=
  (negb (startsWith (js "-") trimmedLine)
   && negb (eqb trimmedLine [])
   && negb (startsWith (js "#") trimmedLine))
  && (includes [COLON] trimmedLine
      && negb (startsWith (js " ") trimmedLine)).

(** [nodeMatch && nodeMatch[1]] as a condition: [&&] evaluates
    [nodeMatch[1]] only when [nodeMatch] is not [null]. *)
Definition matched (nodeMatch : option MatchArray) : result bool :=
  match nodeMatch with
  | None => Ok false
  | Some _ =>
      let* g := index nodeMatch 1 in
      Ok (match g with
          | Some s => negb (eqb s [])
          | None => false
          end)
  end.

(** The body of [for (const line of lines)]. *)
Definition scanLine (st : ScanState) (line : jsstring) : result ScanState :=
  let trimmedLine := trim line in
  if startsWith (js "proxies:") trimmedLine then Ok (setSection st true)
  else if inProxiesSection st then
    if leavesSection trimmedLine then Ok (setSection st false)
    else
      let nodeMatch := match_ trimmedLine nodePattern in
      let* found := matched nodeMatch in
      if found then
        let* propertiesString := index nodeMatch 1 in
        let* props := parseProps propertiesString in
        if hasRequiredFields props
        then Ok (push st props)
        else Ok (warn st props trimmedLine)
      else Ok st
  else Ok st.

Definition initialState : ScanState :=
  {| nodes := []; inProxiesSection := false; console := [] |}.

Definition scan (lines : list jsstring) : result ScanState :=
  forOf scanLine lines initialState.

Definition parseClashNodes (configContent : jsstring)
  : result (list Props) :=
  let lines := JsString.split [LF] configContent in
  let* st := scan lines in
  Ok (nodes st).

End ClashService.

Import RegExp ClashService.

(** ** Vocabulary of the statements *)

(** A string in double quotes. *)
Definition quoted (s : jsstring) : jsstring := DQUOTE :: s ++ [DQUOTE].

(** The document whose lines are [ls]: the lines, separated by line feeds. *)
Fixpoint joinLines (ls : list jsstring) : jsstring :=
  match ls with
  | [] => []
  | [l] => l
  | l :: ls' => l ++ LF :: joinLines ls'
  end.

(** The line is one the scanner takes for the header of the section. *)
Definition isHeader (line : jsstring) : bool :=
  startsWith (js "proxies:") (trim line).

(** The property [key] of [props] is present and truthy. *)
Definition NonEmpty (props : Props) (key : jsstring) : Prop :=
  exists v, props !! key = Some v /\ truthy v = true.

(** The four required properties: [name], [type] and [server] present and
    truthy, [port] defined. *)
Definition Complete (props : Props) : Prop :=
  NonEmpty props (js "name") /\ NonEmpty props (js "type")
  /\ NonEmpty props (js "server") /\ is_Some (props !! js "port").

(** The properties of a line that matches the pattern of a single-line
    record, as the scanner computes them. *)
Definition recordProps (line : jsstring) : option Props :=
  match index (match_ (trim line) nodePattern) 1 with
  | Ok (Some body) =>
      match parseProps (Some body) with
      | Ok props => Some props
      | TypeError => None
      end
  | _ => None
  end.

(** A record line that lacks a required field. *)
Definition IncompleteRecord (line : jsstring) : Prop :=
  exists props, recordProps line = Some props /\ ~ Complete props.

(** Two scan states with the same result array and the same section flag. *)
Definition sameNodes (a b : ScanState) : Prop :=
  nodes a = nodes b /\ inProxiesSection a = inProxiesSection b.

(** What one line does to the state: the five ways out of the loop body. *)
Inductive LineEffect (st : ScanState) (line : jsstring) : ScanState -> Prop :=
| EnterSection :
    isHeader line = true -> LineEffect st line (setSection st true)
| LeaveSection :
    isHeader line = false -> inProxiesSection st = true ->
    leavesSection (trim line) = true ->
    LineEffect st line (setSection st false)
| Ignore :
    isHeader line = false -> LineEffect st line st
| Emit (props : Props) :
    isHeader line = false -> inProxiesSection st = true ->
    leavesSection (trim line) = false ->
    recordProps line = Some props -> Complete props ->
    LineEffect st line (push st props)
| Drop (props : Props) :
    isHeader line = false -> inProxiesSection st = true ->
    leavesSection (trim line) = false ->
    recordProps line = Some props -> ~ Complete props ->
    LineEffect st line (warn st props (trim line)).

(** [y] is a state of the match that [x] is a state of, further on in the
    input. *)
Definition extends (x y : MatchState) : Prop :=
  exists d : nat,
    endIndex y = (endIndex x + d)%nat
    /\ length (rest x) = (length (rest y) + d)%nat.

(** A matcher that calls its continuation on such states only. *)
Definition local (m : MatchState -> Continuation -> option MatchState) : Prop :=
  forall (x : MatchState) (k k' : Continuation),
    (forall y, extends x y -> k y = k' y) -> m x k = m x k'.

(** ** Sample documents *)

Module Samples.

Definition str (s : string) : jsvalue := VString (js s).

(** The number a decimal integer literal denotes. *)
Definition num (n : N) : jsvalue := VNumber (Finite false n 0).

Definition record (kvs : list (string * jsvalue)) : Props :=
  list_to_map (List.map (fun '(k, v) => (js k, v)) kvs).

(** A record line, indented as in a configuration file. *)
Definition recordLine (body : jsstring) : jsstring :=
  js "  - { " ++ body ++ js " }".

(** The scenario of the specification. *)
Definition bodyA : jsstring :=
  js "name: " ++ quoted (js "A")
  ++ js ", type: ss, server: 1.2.3.4, port: 443, cipher: aes-256-gcm".

Definition bodyB : jsstring :=
  js "name: " ++ quoted (js "B")
  ++ js ", type: vmess, server: b.example.com, port: "
  ++ quoted (js "8443") ++ js ", tls: true".

Definition bodyAuto : jsstring :=
  js "name: " ++ quoted (js "Auto") ++ js ", type: select".

Definition scenario : jsstring :=
  joinLines [js "proxies:"; recordLine bodyA; recordLine bodyB;
             js "proxy-groups:"; recordLine bodyAuto].

Definition nodeA : Props :=
  record [("name", str "A"); ("type", str "ss"); ("server", str "1.2.3.4");
          ("port", num 443); ("cipher", str "aes-256-gcm")]%string.

Definition nodeB : Props :=
  record [("name", str "B"); ("type", str "vmess");
          ("server", str "b.example.com"); ("port", num 8443);
          ("tls", VBoolean true)]%string.

(** A value with a comma inside quotes. *)
Definition bodyComma : jsstring :=
  js "name: " ++ quoted (js "a, b") ++ js ", type: x, server: y, port: 1".

(** A port that reads [true] inside quotes. *)
Definition bodyTruePort : jsstring :=
  js "name: n, type: t, server: s, port: " ++ quoted (js "true").


(** A value with colons. *)
Definition bodyUrl : jsstring :=
  js "name: n, type: t, server: http://h.example:8080/p, port: 1".

(** A complete record, and one without [server]. *)
Definition bodyFull : jsstring := js "name: m, type: t, server: s, port: 2".
Definition bodyNoServer : jsstring := js "name: n, type: t, port: 1".

Definition nodeFull : Props :=
  record [("name", str "m"); ("type", str "t"); ("server", str "s");
          ("port", num 2)]%string.

(** An indented key inside the section, before a record. *)
Definition indentedKey : jsstring := js "  foo: bar".

Definition inside : ScanState :=
  {| nodes := []; inProxiesSection := true; console := [] |}.

End Samples.

(** ** Vocabulary of the further properties *)

(** A string of white space only. *)
Definition Blank (s : jsstring) : Prop :=
  Forall (fun c => isWhiteSpace c = true) s.

(** [l'] is the line [l] with white space added in front and behind. *)
Definition Padded (l l' : jsstring) : Prop :=
  exists a b : jsstring, Blank a /\ Blank b /\ l' = a ++ l ++ b.

(** The state of a scan that starts anew, inside or outside the section as
    [st] is. *)
Definition fresh (st : ScanState) : ScanState :=
  {| nodes := []; inProxiesSection := inProxiesSection st; console := [] |}.

(** The values the coercion can store under [key]: a number only under
    [port], and never [NaN]; a string that is neither [true] nor [false],
    and under [port] only one that [Number] does not read. *)
Definition Coerced (key : jsstring) (v : jsvalue) : Prop :=
  match v with
  | VNumber n => key = js "port" /\ n <> NaN
  | VString s =>
      s <> js "true" /\ s <> js "false"
      /\ (key = js "port" -> Number s = NaN)
  | VBoolean _ => True
  end.

(** A string of decimal digits. *)
Definition Digits (s : jsstring) : Prop :=
  s <> [] /\ Forall (fun c => isDigit c = true) s.

(** The keys the parser can store: trimmed, without a colon, and not
    [__proto__]. *)
Definition KeyShape (key : jsstring) : Prop :=
  trim key = key /\ (COLON ∉ key) /\ key <> js "__proto__".

(** A value that holds no colon if it is a string. *)
Definition ColonFree (v : jsvalue) : Prop :=
  match v with
  | VString s => COLON ∉ s
  | _ => True
  end.

(** A string in single quotes. *)
Definition singleQuoted (s : jsstring) : jsstring := SQUOTE :: s ++ [SQUOTE].

(** ** What a pattern matches

    The matches of a pattern as a relation between the state before and the
    state after: every way the pattern can consume input, without the order
    in which the matcher tries them. *)

Inductive Matches : regex -> MatchState -> MatchState -> Prop :=
| MEmpty x : Matches Empty x x
| MChar c x s' :
    rest x = c :: s' -> Matches (Char c) x (advance x s')
| MClass negated cs x c s' :
    rest x = c :: s' -> inClass negated cs c = true ->
    Matches (Class negated cs) x (advance x s')
| MSpace x c s' :
    rest x = c :: s' -> isWhiteSpace c = true ->
    Matches Space x (advance x s')
| MBol x : endIndex x = 0%nat -> Matches Bol x x
| MEol x : rest x = [] -> Matches Eol x x
| MSeq r1 r2 x y z :
    Matches r1 x y -> Matches r2 y z -> Matches (Seq r1 r2) x z
| MAltL r1 r2 x y : Matches r1 x y -> Matches (Alt r1 r2) x y
| MAltR r1 r2 x y : Matches r2 x y -> Matches (Alt r1 r2) x y
| MStarNil r x : Matches (Star r) x x
| MStarStep r x y z :
    Matches r (clearCaptures (groupsOf r) x) y ->
    endIndex y <> endIndex x ->
    Matches (Star r) y z -> Matches (Star r) x z
| MPlus r x y z :
    Matches r (clearCaptures (groupsOf r) x) y ->
    Matches (Star r) y z -> Matches (Plus r) x z
| MGroup i r x y :
    Matches r x y ->
    Matches (Group i r) x
      {| endIndex := endIndex y; rest := rest y;
         captures :=
           <[pred i := Some (firstn (endIndex y - endIndex x) (rest x))]>
             (captures y) |}
| MLookahead r x y :
    Matches r x y ->
    Matches (Lookahead r) x
      {| endIndex := endIndex x; rest := rest x; captures := captures y |}.

(** The patterns whose lookaheads hold no capturing group. *)
Fixpoint plainLookaheads (r : regex) : Prop :=
  match r with
  | Seq r1 r2 | Alt r1 r2 => plainLookaheads r1 /\ plainLookaheads r2
  | Star r' | Plus r' | Group _ r' => plainLookaheads r'
  | Lookahead r' => groupsOf r' = [] /\ plainLookaheads r'
  | _ => True
  end.

(** The first state of [ys] that the continuation accepts. *)
Fixpoint firstSome (k : Continuation) (ys : list MatchState)
  : option MatchState :=
  match ys with
  | [] => None
  | y :: ys' =>
      match k y with
      | Some z => Some z
      | None => firstSome k ys'
      end
  end.

(** The states that [a*] offers to its continuation, for [a] one character
    that satisfies [p], in the order in which it offers them: the longest
    run of such characters first. *)
Fixpoint starTries (p : N -> bool) (idx : nat) (caps : list (option jsstring))
  (s : jsstring) : list MatchState :=
  match s with
  | c :: s' =>
      if p c
      then starTries p (S idx) caps s'
           ++ [{| endIndex := idx; rest := s; captures := caps |}]
      else [{| endIndex := idx; rest := s; captures := caps |}]
  | [] => [{| endIndex := idx; rest := []; captures := caps |}]
  end.

(** The string does not start with a character that satisfies [p]. *)
Definition stops (p : N -> bool) (s : jsstring) : Prop :=
  match s with
  | c :: _ => p c = false
  | [] => True
  end.

(** What the record pattern captures of the text between the braces: the
    text from its first character that is not white space on, or the last
    character of a blank text. *)
Definition recordBody (inner : jsstring) : jsstring :=
  match trimStart inner with
  | [] => match last inner with Some c => [c] | None => [] end
  | body => body
  end.

(** What follows [- {] in the record pattern. *)
Definition afterBrace : Continuation :=
  fun y =>
    matcher (Group 1 (Plus (Class true [125]))) y
      (fun y0 =>
         matcher (Star Space) y0
           (fun y1 =>
              matcher (Char 125) y1
                (fun y2 => matcher Eol y2 (fun y3 => matcher Empty y3 Some)))).

(** ** Quotes, read from left to right

    Where a reader of quoted text stands: outside every quote, inside
    double quotes, inside single quotes, or stuck on a single quote met
    inside double quotes. *)

Inductive quoting := Outside | InDouble | InSingle | Stuck.

Definition quoteStep (q : quoting) (c : N) : quoting :=
  match q with
  | Outside =>
      if c =? DQUOTE then InDouble
      else if c =? SQUOTE then InSingle else Outside
  | InDouble =>
      if c =? DQUOTE then Outside
      else if c =? SQUOTE then Stuck else InDouble
  | InSingle => if c =? SQUOTE then Outside else InSingle
  | Stuck => Stuck
  end.

Definition quoteRun (q : quoting) (s : jsstring) : quoting :=
  fold_left quoteStep s q.

(** Every quote of [s] is closed: double quotes around text without any
    quote, single quotes around text without a single quote. *)
Definition closes (s : jsstring) : bool :=
  match quoteRun Outside s with
  | Outside => true
  | _ => false
  end.

(** The pairs of a record body, without a regular expression: a comma
    separates two pairs when every quote of the text after it is closed, and
    the white space after such a comma belongs to the separator.  [skip]
    tells that a separator has just been read. *)
Fixpoint splitPairs (skip : bool) (cur s : jsstring) : list jsstring :=
  match s with
  | [] => [cur]
  | c :: s' =>
      if skip && isWhiteSpace c then splitPairs true cur s'
      else if (c =? COMMA) && closes s' then cur :: splitPairs true [] s'
      else splitPairs false (cur ++ [c]) s'
  end.

(** The parts of the separator pattern: a text in double quotes, a text in
    single quotes, each with text without quotes around it, and the body of
    the lookahead. *)
Definition doubleQuotedSpan : regex :=
  cat [Star notQuote; Char DQUOTE; Star notQuote; Char DQUOTE; Star notQuote].

Definition singleQuotedSpan : regex :=
  cat [Star notQuote; Char SQUOTE; Star (Class true [SQUOTE]); Char SQUOTE;
       Star notQuote].

Definition quotesClosed : regex :=
  cat [Star (Alt doubleQuotedSpan singleQuotedSpan); Star notQuote; Eol].

(** The number of white-space characters [s] starts with. *)
Definition blankLength (s : jsstring) : nat :=
  (length s - length (trimStart s))%nat.

(** What follows the comma and the white space in the separator pattern. *)
Definition afterComma : Continuation :=
  fun y =>
    matcher (Lookahead quotesClosed) y (fun y0 => matcher Empty y0 Some).

(** ** The rest of [src/services/clashService.ts]: [fetchClashConfig] *)

Module Fetcher.

(** What a [catch] clause receives, as far as [err.message] reads it: the
    message of an [Error], or [None] when the value thrown has none. *)
Inductive thrown := Thrown (message : option jsstring).

(** A promise that has settled. *)
Inductive promise (A : Type) :=
| Fulfilled (a : A)
| Rejected (err : thrown).
Arguments Fulfilled {A} a.
Arguments Rejected {A} err.

(** The response of [fetch], with the outcome of [response.text()]. *)
Record Response := {
  ok : bool;
  status : N;
  statusText : jsstring;
  text : promise jsstring
}.

Fixpoint uintToString (u : Decimal.uint) : jsstring :=
  match u with
  | Decimal.Nil => []
  | Decimal.D0 u' => 48 :: uintToString u'
  | Decimal.D1 u' => 49 :: uintToString u'
  | Decimal.D2 u' => 50 :: uintToString u'
  | Decimal.D3 u' => 51 :: uintToString u'
  | Decimal.D4 u' => 52 :: uintToString u'
  | Decimal.D5 u' => 53 :: uintToString u'
  | Decimal.D6 u' => 54 :: uintToString u'
  | Decimal.D7 u' => 55 :: uintToString u'
  | Decimal.D8 u' => 56 :: uintToString u'
  | Decimal.D9 u' => 57 :: uintToString u'
  end.

(** [`${n}`] for a status code, a non-negative integer. *)
Definition integerToString (n : N) : jsstring := uintToString (N.to_uint n).

Definition invalidUrl : jsstring :=
  js "Invalid URL. Must start with http:// or https://".

Section WithFetch.

(** The network: what [await fetch(url)] gives. *)
Variable fetch : jsstring -> promise Response.

Definition fetchClashConfig (url : jsstring) : promise jsstring :=
  if negb (startsWith (js "http://") url)
     && negb (startsWith (js "https://") url)
  then Rejected (Thrown (Some invalidUrl))
  else
    match fetch url with
    | Rejected err => Rejected err
    | Fulfilled response =>
        if negb (ok response)
        then Rejected
               (Thrown
                  (Some (js "HTTP error! Status: "
                         ++ integerToString (status response)
                         ++ js " - " ++ statusText response)))
        else text response
    end.

End WithFetch.

End Fetcher.

(** ** [handleFetchNodes] of [App.tsx] *)

Module App.

Import Fetcher.

(** The state of the component ([url], [nodes], [loading], [error]) and
    what [console.error] has printed. *)
Record AppState := {
  url : jsstring;
  nodes : list Props;
  loading : bool;
  error : option jsstring;
  logged : list thrown
}.

Definition setError (st : AppState) (e : option jsstring) : AppState :=
  {| url := url st; nodes := nodes st; loading := loading st; error := e;
     logged := logged st |}.

Definition setLoading (st : AppState) (b : bool) : AppState :=
  {| url := url st; nodes := nodes st; loading := b; error := error st;
     logged := logged st |}.

Definition setNodes (st : AppState) (ns : list Props) : AppState :=
  {| url := url st; nodes := ns; loading := loading st; error := error st;
     logged := logged st |}.

Definition consoleError (st : AppState) (err : thrown) : AppState :=
  {| url := url st; nodes := nodes st; loading := loading st;
     error := error st; logged := logged st ++ [err] |}.

Definition enterUrl : jsstring := js "Please enter a valid URL.".

Definition noNodes : jsstring :=
  js "No Clash nodes found or unable to parse from the provided URL. Please check the URL and content format.".

Definition unknownError : jsstring :=
  js "An unknown error occurred while fetching or parsing. Please try again.".

(** [err.message || unknownError] *)
Definition messageOf (err : thrown) : jsstring :=
  match err with
  | Thrown (Some m) => if eqb m [] then unknownError else m
  | Thrown None => unknownError
  end.

Section WithFetch.

Variable fetch : jsstring -> promise Response.

(** The message of the [TypeError] of the engine, were the parser to
    throw. *)
Variable typeErrorMessage : jsstring.

(** The [catch] clause. *)
Definition caught (st : AppState) (err : thrown) : AppState :=
  setError (consoleError st err) (Some (messageOf err)).

(** The state once the promise of [handleFetchNodes] has settled. *)
Definition handleFetchNodes (st : AppState) : AppState :=
  let st := setError st None in
  let st := setLoading st true in
  let st := setNodes st [] in
  if eqb (trim (url st)) [] then
    let st := setError st (Some enterUrl) in
    setLoading st false
  else
    let st :=
      match fetchClashConfig fetch (url st) with
      | Rejected err => caught st err
      | Fulfilled configContent =>
          match parseClashNodes configContent with
          | TypeError => caught st (Thrown (Some typeErrorMessage))
          | Ok parsedNodes =>
              let st := setNodes st parsedNodes in
              if (length parsedNodes =? 0)%nat
              then setError st (Some noNodes)
              else st
          end
      end in
    setLoading st false.

End WithFetch.

End App.

(** ** [NodeCard] of [components/NodeCard.tsx] *)

Module NodeCard.

(** A row of the card; [value] is [None] when it is [undefined]. *)
Record NodeDetail := { label : jsstring; value : option jsvalue }.

Definition detail (l : string) (v : option jsvalue) : NodeDetail :=
  {| label := js l; value := v |}.

Definition primaryDetails (node : Props) : list NodeDetail :=
  [detail "Name" (getProp node (js "name"));
   detail "Type" (getProp node (js "type"));
   detail "Server" (getProp node (js "server"));
   detail "Port" (getProp node (js "port"))].

(** [...(node[key] ? [{ label, value: node[key] }] : [])] *)
Definition whenTruthy (node : Props) (key l : string) : list NodeDetail :=
  if truthyProp (getProp node (js key))
  then [detail l (getProp node (js key))]
  else [].

(** [...(node[key] !== undefined
         ? [{ label, value: node[key] ? 'Yes' : 'No' }] : [])] *)
Definition yesNo (node : Props) (key l : string) : list NodeDetail :=
  if isDefined (getProp node (js key))
  then [detail l
          (Some (VString (if truthyProp (getProp node (js key))
                          then js "Yes" else js "No")))]
  else [].

Definition optionalDetails (node : Props) : list NodeDetail :=
  whenTruthy node "cipher" "Cipher"
  ++ whenTruthy node "uuid" "UUID"
  ++ whenTruthy node "network" "Network"
  ++ whenTruthy node "ws-path" "WS Path"
  ++ yesNo node "tls" "TLS"
  ++ yesNo node "udp-relay" "UDP Relay"
  ++ whenTruthy node "password" "Password"
  ++ (if isDefined (getProp node (js "alterId"))
      then [detail "Alter ID" (getProp node (js "alterId"))]
      else []).

Definition allDetails (node : Props) : list NodeDetail :=
  primaryDetails node ++ optionalDetails node.

Section WithNumbers.

(** [Number.prototype.toString]. *)
Variable numberToString : number -> jsstring.

Definition toString (v : jsvalue) : jsstring :=
  match v with
  | VString s => s
  | VNumber n => numberToString n
  | VBoolean b => if b then js "true" else js "false"
  end.

(** [detail.value.toString()], a [TypeError] on [undefined]. *)
Definition valueText (d : NodeDetail) : result jsstring :=
  match value d with
  | Some v => Ok (toString v)
  | None => TypeError
  end.

(** The rows the card shows, label and text. *)
Fixpoint rows (ds : list NodeDetail) : result (list (jsstring * jsstring)) :=
  match ds with
  | [] => Ok []
  | d :: ds' =>
      let* t := valueText d in
      let* r := rows ds' in
      Ok ((label d, t) :: r)
  end.

Definition NodeCard (node : Props) : result (list (jsstring * jsstring)) :=
  rows (allDetails node).

End WithNumbers.

End NodeCard.

(** What [console.warn] is given for a line: the properties and the trimmed
    text of a record line that fails the check of the required fields, met
    inside the section; nothing for any other line. *)
Definition warningOf (inSection : bool) (line : jsstring)
  : list (Props * jsstring) :=
  match recordProps line with
  | Some props =>
      if inSection && negb (hasRequiredFields props)
      then [(props, trim line)]
      else []
  | None => []
  end.

(** ** Strings *)

Section Strings.

Implicit Types (s t cur : jsstring) (c : N).

Lemma trimStart_snoc s c :
  isWhiteSpace c = false -> exists s', trimStart (s ++ [c]) = s' ++ [c].
Proof.
  intros Hc. induction s as [|a s IH]; simpl.
  - rewrite Hc. now exists [].
  - destruct (isWhiteSpace a); [exact IH|].
    now exists (a :: s).
Qed.

Lemma trimStart_head s c t :
  trimStart s = c :: t -> isWhiteSpace c = false.
Proof.
  induction s as [|a s IH]; simpl; [discriminate|].
  destruct (isWhiteSpace a) eqn:Ha; [exact IH|].
  intros [= <- _]. exact Ha.
Qed.

(** The first character of a trimmed string is not white space. *)
Lemma trim_head s c t : trim s = c :: t -> isWhiteSpace c = false.
Proof.
  unfold trim, trimEnd.
  destruct (trimStart s) as [|a u] eqn:Hs; [discriminate|].
  pose proof (trimStart_head _ _ _ Hs) as Ha.
  simpl rev. destruct (trimStart_snoc (rev u) a Ha) as [u' ->].
  rewrite rev_app_distr. simpl. now intros [= <- _].
Qed.

Lemma startsWith_space_trim s : startsWith (js " ") (trim s) = false.
Proof.
  destruct (trim s) as [|c t] eqn:Ht; [reflexivity|].
  apply trim_head in Ht. change (js " ") with [32].
  cbn [startsWith].
  destruct (N.eqb_spec 32 c) as [<-|]; [discriminate Ht|reflexivity].
Qed.

Lemma splitLoop_LF_app s t cur :
  splitLoop [LF] 0 cur (s ++ LF :: t)
  = splitLoop [LF] 0 cur s ++ splitLoop [LF] 0 [] t.
Proof.
  revert cur. induction s as [|a s IH]; intros cur.
  - reflexivity.
  - cbn [app splitLoop startsWith].
    destruct (LF =? a); cbn [andb length Nat.sub]; rewrite IH; reflexivity.
Qed.

Lemma splitLoop_LF_line s cur :
  LF ∉ s -> splitLoop [LF] 0 cur s = [cur ++ s].
Proof.
  revert cur. induction s as [|a s IH]; intros cur Hs.
  - simpl. now rewrite app_nil_r.
  - cbn [splitLoop startsWith].
    destruct (N.eqb_spec LF a) as [<-|Hne].
    + exfalso. apply Hs. left.
    + cbn [andb]. rewrite IH.
      * now rewrite <- app_assoc.
      * intros Hin. apply Hs. now right.
Qed.

(** No piece of a split at colons holds a colon. *)
Lemma splitLoop_COLON_pieces s cur :
  COLON ∉ cur -> Forall (fun piece => COLON ∉ piece) (splitLoop [COLON] 0 cur s).
Proof.
  revert cur. induction s as [|a s IH]; intros cur Hcur.
  - repeat constructor. exact Hcur.
  - cbn [splitLoop startsWith].
    destruct (N.eqb_spec COLON a) as [<-|Hne]; cbn [andb length Nat.sub].
    + constructor; [exact Hcur|]. apply IH. apply not_elem_of_nil.
    + apply IH. intros Hin. apply elem_of_app in Hin as [Hin|Hin].
      * now apply Hcur.
      * apply list_elem_of_singleton in Hin. congruence.
Qed.

(** The two parts of a pair hold no colon: what follows the second colon of
    a pair is lost. *)
Lemma parts_without_colon (pair part : jsstring) :
  part ∈ splitLimit [COLON] pair 2 -> COLON ∉ part.
Proof.
  unfold splitLimit, JsString.split. intros Hin.
  pose proof (splitLoop_COLON_pieces pair [] (not_elem_of_nil _)) as Hall.
  apply (Forall_take _ 2%nat) in Hall.
  rewrite Forall_forall in Hall. now apply Hall.
Qed.

(** Splitting the document made of the lines [ls] gives [ls] back. *)
Lemma split_joinLines (ls : list jsstring) :
  ls <> [] -> Forall (fun l => LF ∉ l) ls ->
  JsString.split [LF] (joinLines ls) = ls.
Proof.
  unfold JsString.split.
  induction ls as [|l ls IH]; [congruence|]. intros _ Hall.
  apply Forall_cons in Hall as [Hl Hall].
  destruct ls as [|l' ls].
  - simpl. now rewrite splitLoop_LF_line.
  - change (joinLines (l :: l' :: ls)) with (l ++ LF :: joinLines (l' :: ls)).
    rewrite splitLoop_LF_app, splitLoop_LF_line by assumption.
    rewrite IH by (assumption || congruence). reflexivity.
Qed.

End Strings.

(** ** The rounds of a repetition *)

Section Rounds.

Implicit Types (x y z : MatchState) (k : Continuation).

Lemma extends_refl x : extends x x.
Proof. exists 0%nat. split; lia. Qed.

Lemma extends_trans x y z : extends x y -> extends y z -> extends x z.
Proof.
  intros (d & H1 & H2) (e & H3 & H4). exists (d + e)%nat. split; lia.
Qed.

Lemma extends_clear gs x y : extends (clearCaptures gs x) y -> extends x y.
Proof. exact id. Qed.

Lemma charMatcher_local (p : N -> bool) : local (charMatcher p).
Proof.
  intros x k k' H. unfold charMatcher.
  destruct (rest x) as [|c s'] eqn:Hr; [reflexivity|].
  destruct (p c); [|reflexivity]. apply H.
  exists 1%nat. simpl. rewrite Hr. simpl. split; lia.
Qed.

Lemma repeatMatcher_local m gs (n : nat) : local m -> local (repeatMatcher m gs n).
Proof.
  intros Hm. induction n as [|n IH]; intros x k k' H; simpl.
  - apply H, extends_refl.
  - rewrite (H x (extends_refl x)).
    erewrite Hm; [reflexivity|].
    intros y Hy. cbv beta.
    destruct (endIndex y =? endIndex x)%nat; [reflexivity|].
    apply IH. intros z Hz. apply H. eapply extends_trans; eassumption.
Qed.

Lemma matcher_local (r : regex) : local (matcher r).
Proof.
  induction r as [|c|neg cs| | | |r1 IH1 r2 IH2|r1 IH1 r2 IH2|r IH|r IH|i r IH
                 |r IH]; intros x k k' H; cbn [matcher].
  - apply H, extends_refl.
  - now apply charMatcher_local.
  - now apply charMatcher_local.
  - now apply charMatcher_local.
  - destruct (endIndex x =? 0)%nat; [apply H, extends_refl|reflexivity].
  - destruct (rest x); [apply H, extends_refl|reflexivity].
  - apply IH1. intros y Hy. apply IH2. intros z Hz.
    apply H. eapply extends_trans; eassumption.
  - now rewrite (IH1 x k k' H), (IH2 x k k' H).
  - now apply repeatMatcher_local.
  - apply IH. intros y Hy. apply repeatMatcher_local; [exact IH|].
    intros z Hz. apply H. eapply extends_trans; eassumption.
  - apply IH. intros y Hy. apply H. exact Hy.
  - destruct (matcher r x Some); [|reflexivity]. apply H.
    exists 0%nat. simpl. split; lia.
Qed.

(** More rounds than the input has characters left change nothing. *)
Lemma repeatMatcher_rounds m gs (len n1 n2 : nat) x k :
  local m -> (length (rest x) <= len)%nat -> (len < n1)%nat ->
  (len < n2)%nat ->
  repeatMatcher m gs n1 x k = repeatMatcher m gs n2 x k.
Proof.
  intros Hm. revert n1 n2 x.
  induction len as [|len IH]; intros n1 n2 x Hlen H1 H2;
    (destruct n1 as [|n1]; [lia|]); (destruct n2 as [|n2]; [lia|]);
    simpl; (erewrite Hm; [reflexivity|]); intros y (d & Hi & Hl);
    cbv beta;
    destruct (Nat.eqb_spec (endIndex y) (endIndex x)) as [|Hne];
    try reflexivity; simpl in Hi, Hl.
  - lia.
  - apply IH; lia.
Qed.

(** The rounds [r*] starts with are enough: with any greater number of
    them the match is the same. *)
Lemma star_rounds_enough (r : regex) (n : nat) x k :
  (S (length (rest x)) <= n)%nat ->
  repeatMatcher (matcher r) (groupsOf r) n x k = matcher (Star r) x k.
Proof.
  intros Hn. cbn [matcher].
  apply (repeatMatcher_rounds _ _ (length (rest x)));
    [apply matcher_local|lia..].
Qed.

End Rounds.

(** ** The record pattern *)

Section RecordPattern.

(** The pattern is anchored: it matches at index 0 or nowhere. *)
Lemma execFrom_nodePattern_later (s : jsstring) (i : nat) :
  execFrom nodePattern (S i) s = None.
Proof.
  revert i. induction s as [|c s IH]; intros i; [reflexivity|].
  cbn [execFrom]. rewrite IH. reflexivity.
Qed.

(** A line that matches the record pattern starts with a dash. *)
Lemma match_nodePattern_dash (t : jsstring) (arr : MatchArray) :
  match_ t nodePattern = Some arr -> startsWith (js "-") t = true.
Proof.
  unfold match_. destruct t as [|c t]; [discriminate|].
  cbn [execFrom]. rewrite execFrom_nodePattern_later.
  change (js "-") with [45]. cbn [startsWith].
  unfold matchAt, nodePattern.
  cbn [pattern cat foldr matcher charMatcher rest endIndex Nat.eqb].
  destruct (45 =? c); [reflexivity|discriminate].
Qed.

Lemma dash_not_header (t : jsstring) :
  startsWith (js "-") t = true -> startsWith (js "proxies:") t = false.
Proof.
  destruct t as [|c t]; [discriminate|].
  change (js "-") with [45].
  change (js "proxies:") with [112; 114; 111; 120; 105; 101; 115; 58].
  cbn [startsWith].
  destruct (N.eqb_spec 45 c) as [<-|]; [reflexivity|discriminate].
Qed.

Lemma dash_stays (t : jsstring) :
  startsWith (js "-") t = true -> leavesSection t = false.
Proof. intros H. unfold leavesSection. now rewrite H. Qed.

End RecordPattern.

(** ** The scanner *)

Section Scanner.

Implicit Types (st : ScanState) (line body : jsstring) (props : Props).

Lemma forOf_total {A S : Type} (body : S -> A -> result S) (xs : list A) :
  (forall acc x, exists acc', body acc x = Ok acc') ->
  forall acc, exists acc', forOf body xs acc = Ok acc'.
Proof.
  intros Hbody. induction xs as [|x xs IH]; intros acc; simpl; [eauto|].
  destruct (Hbody acc x) as [acc' ->]. simpl. apply IH.
Qed.

Lemma forOf_app {A S : Type} (body : S -> A -> result S) (xs ys : list A)
  (acc : S) :
  forOf body (xs ++ ys) acc = bind (forOf body xs acc) (forOf body ys).
Proof.
  revert acc. induction xs as [|x xs IH]; intros acc; simpl; [reflexivity|].
  destruct (body acc x); simpl; [apply IH|reflexivity].
Qed.

(** The guard [parts.length === 2] makes both [parts[0]] and [parts[1]]
    strings. *)
Lemma parsePair_total props (pair : jsstring) :
  exists props', parsePair props pair = Ok props'.
Proof.
  unfold parsePair.
  destruct (splitLimit [COLON] pair 2) as [|a [|b [|c l]]]; simpl; eauto.
Qed.

Lemma parseProps_total body : exists props, parseProps (Some body) = Ok props.
Proof.
  unfold parseProps. simpl. apply forOf_total. apply parsePair_total.
Qed.

Lemma truthyProp_NonEmpty props (key : jsstring) :
  truthyProp (getProp props key) = true <-> NonEmpty props key.
Proof.
  unfold NonEmpty, getProp, truthyProp. split.
  - destruct (props !! key) as [v|]; [eauto|discriminate].
  - now intros (v & -> & Hv).
Qed.

(** The check of the source is the completeness of the statements. *)
Lemma hasRequiredFields_Complete props :
  hasRequiredFields props = true <-> Complete props.
Proof.
  unfold hasRequiredFields, Complete.
  rewrite !andb_true_iff, !truthyProp_NonEmpty.
  assert (isDefined (getProp props (js "port")) = true
          <-> is_Some (props !! js "port")) as ->; [|tauto].
  unfold getProp, isDefined.
  destruct (props !! js "port"); split; intros H; eauto;
    [discriminate H|destruct H; discriminate].
Qed.

Lemma scanLine_effect st line :
  exists st', scanLine st line = Ok st' /\ LineEffect st line st'.
Proof.
  unfold scanLine. fold (isHeader line).
  destruct (isHeader line) eqn:Hh; [eauto using LineEffect|].
  destruct (inProxiesSection st) eqn:Hin; [|eauto using LineEffect].
  destruct (leavesSection (trim line)) eqn:Hl; [eauto using LineEffect|].
  pose proof (eq_refl (recordProps line)) as Hr. unfold recordProps at 2 in Hr.
  destruct (match_ (trim line) nodePattern) as [arr|];
    [|simpl; eauto using LineEffect].
  cbn [matched index bind] in *.
  destruct (mjoin (arr !! 1%nat)) as [body|]; [|eauto using LineEffect].
  destruct (eqb body []); cbn [negb]; [eauto using LineEffect|].
  destruct (parseProps_total body) as [props Hp]. rewrite Hp in *.
  cbn [bind].
  destruct (hasRequiredFields props) eqn:Hc.
  - apply hasRequiredFields_Complete in Hc. eauto using LineEffect.
  - assert (~ Complete props)
      by (rewrite <- hasRequiredFields_Complete; congruence).
    eauto using LineEffect.
Qed.

(** No line makes the loop body throw. *)
Lemma scanLine_total st line : exists st', scanLine st line = Ok st'.
Proof. destruct (scanLine_effect st line) as (st' & H & _). eauto. Qed.

Lemma scan_from_total (lines : list jsstring) st :
  exists st', forOf scanLine lines st = Ok st'.
Proof. apply forOf_total. apply scanLine_total. Qed.

(** Every record of the result array is complete, at every step. *)
Lemma scanLine_complete st line st' :
  scanLine st line = Ok st' ->
  Forall Complete (nodes st) -> Forall Complete (nodes st').
Proof.
  intros Hs Hall. destruct (scanLine_effect st line) as (st'' & Hs' & He).
  rewrite Hs in Hs'. injection Hs' as <-.
  destruct He; simpl; try assumption.
  apply Forall_app. split; [assumption|]. now constructor.
Qed.

Lemma scan_from_complete (lines : list jsstring) st st' :
  forOf scanLine lines st = Ok st' ->
  Forall Complete (nodes st) -> Forall Complete (nodes st').
Proof.
  revert st. induction lines as [|l lines IH]; intros st; simpl.
  - now intros [= <-].
  - destruct (scanLine st l) as [st1|] eqn:Hl; simpl; [|discriminate].
    intros Hs Hall. eapply IH; [exact Hs|].
    eapply scanLine_complete; eassumption.
Qed.

End Scanner.

(** ** Incomplete records *)

Section Incomplete.

Implicit Types (st : ScanState) (line : jsstring) (props : Props).

Lemma recordProps_dash line props :
  recordProps line = Some props -> startsWith (js "-") (trim line) = true.
Proof.
  unfold recordProps.
  destruct (match_ (trim line) nodePattern) as [arr|] eqn:Hm; [|discriminate].
  intros _. eapply match_nodePattern_dash, Hm.
Qed.

(** The console is write-only: the result array and the section flag after
    a line depend on nothing else than their values before it. *)
Lemma scanLine_sameNodes st1 st2 line st1' :
  sameNodes st1 st2 -> scanLine st1 line = Ok st1' ->
  exists st2', scanLine st2 line = Ok st2' /\ sameNodes st1' st2'.
Proof.
  intros [Hn Hi]. unfold scanLine, sameNodes. rewrite <- Hi.
  destruct (startsWith (js "proxies:") (trim line)).
  { intros [= <-]. eexists. split; [reflexivity|]. simpl. auto. }
  destruct (inProxiesSection st1) eqn:Hin.
  2:{ intros [= <-]. eexists. split; [reflexivity|]. rewrite Hin. auto. }
  destruct (leavesSection (trim line)).
  { intros [= <-]. eexists. split; [reflexivity|]. simpl. auto. }
  destruct (matched (match_ (trim line) nodePattern)) as [[|]|];
    cbn [bind]; [|intros [= <-]; eauto|discriminate].
  destruct (index (match_ (trim line) nodePattern) 1) as [body|];
    cbn [bind]; [|discriminate].
  destruct (parseProps body) as [props|]; cbn [bind]; [|discriminate].
  destruct (hasRequiredFields props); intros [= <-];
    (eexists; split; [reflexivity|]); simpl; rewrite Hn, <- Hi; auto.
Qed.

Lemma scan_from_sameNodes (lines : list jsstring) st1 st2 st1' :
  sameNodes st1 st2 -> forOf scanLine lines st1 = Ok st1' ->
  exists st2', forOf scanLine lines st2 = Ok st2' /\ sameNodes st1' st2'.
Proof.
  revert st1 st2. induction lines as [|l lines IH]; intros st1 st2 Hs; simpl.
  - intros [= <-]. eauto.
  - destruct (scanLine st1 l) as [a|] eqn:Ha; [|discriminate].
    destruct (scanLine_sameNodes _ _ _ _ Hs Ha) as (b & -> & Hab).
    simpl. now apply IH.
Qed.

(** A record line that lacks a required field leaves the result array and
    the section flag as they are, wherever it stands. *)
Lemma scanLine_incomplete st line :
  IncompleteRecord line ->
  exists st', scanLine st line = Ok st' /\ sameNodes st st'.
Proof.
  intros (props & Hr & Hc).
  pose proof (recordProps_dash _ _ Hr) as Hd.
  destruct (scanLine_effect st line) as (st' & Hs & He).
  exists st'. split; [exact Hs|].
  destruct He as [Hh|_ _ Hl| |p _ _ _ Hp Hcp|p _ _ _ Hp _].
  - unfold isHeader in Hh. rewrite (dash_not_header _ Hd) in Hh. discriminate.
  - rewrite (dash_stays _ Hd) in Hl. discriminate.
  - split; reflexivity.
  - rewrite Hr in Hp. injection Hp as <-. contradiction.
  - split; reflexivity.
Qed.

(** The parser on the document made of the lines [ls] is the scan of
    [ls]. *)
Lemma parseClashNodes_joinLines (ls : list jsstring) :
  Forall (fun l => LF ∉ l) ls ->
  parseClashNodes (joinLines ls) = bind (scan ls) (fun st => Ok (nodes st)).
Proof.
  intros Hall. destruct ls as [|l ls]; [reflexivity|].
  unfold parseClashNodes. now rewrite split_joinLines.
Qed.

End Incomplete.

(** ** Documents without a header *)

Section NoHeader.

Lemma scan_outside (lines : list jsstring) (st : ScanState) :
  inProxiesSection st = false ->
  Forall (fun l => isHeader l = false) lines ->
  forOf scanLine lines st = Ok st.
Proof.
  intros Hout Hall. induction Hall as [|l lines Hl _ IH]; [reflexivity|].
  simpl. unfold scanLine at 1. fold (isHeader l). rewrite Hl, Hout.
  simpl. exact IH.
Qed.

End NoHeader.

(** ** The section-exit test *)

Section SectionExit.

(** The last conjunct of the exit test looks at the trimmed line, which
    never starts with a space: the test does not see the indentation of the
    line. *)
Lemma leavesSection_trim (line : jsstring) :
  leavesSection (trim line)
  = negb (startsWith (js "-") (trim line))
    && negb (eqb (trim line) [])
    && negb (startsWith (js "#") (trim line))
    && includes [COLON] (trim line).
Proof.
  unfold leavesSection. rewrite startsWith_space_trim.
  cbn [negb]. now rewrite andb_true_r.
Qed.

End SectionExit.

(** ** Tokenization and coercion of a record body *)

Import Samples.

(** C1.  The claim is that the value of a pair is everything after its first
    colon.  The code calls [pair.split(':', 2)], which keeps the first two
    pieces of the split at every colon and discards the rest: the value of
    [server: http://h.example:8080/p] is cut at its second colon and the
    record holds [http]. *)
Theorem value_cut_at_second_colon :
  splitLimit [COLON] (js "server: http://h.example:8080/p") 2
  = [js "server"; js " http"]
  /\ parseProps (Some bodyUrl)
     = Ok (record [("name", str "n"); ("type", str "t");
                   ("server", str "http"); ("port", num 1)]%string)
  /\ parseClashNodes (joinLines [js "proxies:"; recordLine bodyUrl])
     = Ok [record [("name", str "n"); ("type", str "t");
                   ("server", str "http"); ("port", num 1)]%string].
Proof. repeat split; vm_compute; reflexivity. Qed.

(** C2.  The claim is that an indented line never ends the section.  The
    code tests the trimmed line for a leading space, so the indented line
    [  foo: bar] ends the section, and the record after it is not
    extracted. *)
Theorem indented_key_leaves_section :
  scanLine inside indentedKey = Ok (setSection inside false)
  /\ parseClashNodes
       (joinLines [js "proxies:"; indentedKey; recordLine bodyFull])
     = Ok []
  /\ parseClashNodes (joinLines [js "proxies:"; recordLine bodyFull])
     = Ok [nodeFull].
Proof. repeat split; vm_compute; reflexivity. Qed.




(** C4.  The port [true] in quotes: the numeric rule comes first and fails,
    since [Number] of [true] is [NaN]; the boolean rule then applies.  The
    port of the record is the boolean [true], and the record is emitted. *)
Theorem quoted_true_port_is_boolean :
  Number (js "true") = NaN
  /\ coerce (js "port") (stripQuotes (quoted (js "true"))) = VBoolean true
  /\ parseProps (Some bodyTruePort)
     = Ok (record [("name", str "n"); ("type", str "t"); ("server", str "s");
                   ("port", VBoolean true)]%string)
  /\ parseClashNodes (joinLines [js "proxies:"; recordLine bodyTruePort])
     = Ok [record [("name", str "n"); ("type", str "t"); ("server", str "s");
                   ("port", VBoolean true)]%string].
Proof. repeat split; vm_compute; reflexivity. Qed.

(** C5.  A comma inside quotes does not separate pairs: the body has four
    pairs, and the name is [a, b]. *)
Theorem quoted_comma_is_kept :
  RegExp.split bodyComma pairSeparator
  = [js "name: " ++ quoted (js "a, b"); js "type: x"; js "server: y";
     js "port: 1"]
  /\ parseProps (Some bodyComma)
     = Ok (record [("name", str "a, b"); ("type", str "x");
                   ("server", str "y"); ("port", num 1)]%string)
  /\ size (record [("name", str "a, b"); ("type", str "x");
                   ("server", str "y"); ("port", num 1)]%string) = 4%nat.
Proof. repeat split; vm_compute; reflexivity. Qed.

(** C6.  The scenario of the specification yields the records A and B, in
    this order, and nothing else: A with the number 443 as port and its
    cipher, B with the number 8443 as port and [tls] the boolean [true]; the
    line under [proxy-groups:] yields no record. *)
Theorem scenario_yields_two_records :
  parseClashNodes scenario = Ok [nodeA; nodeB].
Proof. vm_compute. reflexivity. Qed.

(** ** Whole documents *)

(** C7, as stated, fails when the header is the line that trims to
    [proxies:] and nothing more: no line of this document is such a line,
    yet its first line opens the section, since the scanner looks at the
    start of the trimmed line only, and the record below it is returned. *)
Lemma header_with_a_tail_opens_the_section :
  Forall (fun line => trim line <> js "proxies:")
         (JsString.split [LF]
            (joinLines [js "proxies: # my nodes"; recordLine bodyFull]))
  /\ parseClashNodes
       (joinLines [js "proxies: # my nodes"; recordLine bodyFull])
     = Ok [nodeFull]
  /\ parseClashNodes
       (joinLines [js "proxies: # my nodes"; recordLine bodyFull])
     <> Ok [].
Proof.
  split; [|split].
  - apply (bool_decide_unpack _). vm_compute. exact I.
  - vm_compute. reflexivity.
  - vm_compute. discriminate.
Qed.

(** C7, amended.  A document none of whose lines has a trimmed text that
    begins with [proxies:] (which is how the scanner recognises the header
    of the section) yields the empty array. *)
Theorem no_header_no_nodes (configContent : jsstring) :
  Forall (fun line => isHeader line = false)
         (JsString.split [LF] configContent) ->
  parseClashNodes configContent = Ok [].
Proof.
  intros Hall. unfold parseClashNodes, scan.
  now rewrite scan_outside.
Qed.

Lemma no_header_no_nodes_witness :
  parseClashNodes
    (joinLines [js "proxy-groups:"; recordLine bodyFull; js "my-proxies:";
                recordLine bodyFull])
  = Ok [].
Proof.
  apply no_header_no_nodes.
  apply (bool_decide_unpack _). vm_compute. exact I.
Defined.

(** The header is recognised by its prefix: a line that goes on after
    [proxies:] opens the section as well. *)
Remark header_is_a_prefix_test :
  trim (js "proxies:x") <> js "proxies:"
  /\ parseClashNodes (joinLines [js "proxies:x"; recordLine bodyFull])
     = Ok [nodeFull].
Proof. split; [vm_compute; discriminate|vm_compute; reflexivity]. Qed.

(** C8.  Every record of the result has truthy [name], [type] and [server]
    and a defined [port]; and a record line whose properties fail this check
    adds nothing to the result array. *)
Theorem emitted_records_are_complete :
  (forall (configContent : jsstring) (records : list Props),
      parseClashNodes configContent = Ok records -> Forall Complete records)
  /\ (forall (st st' : ScanState) (line : jsstring) (props : Props),
         recordProps line = Some props -> ~ Complete props ->
         scanLine st line = Ok st' -> nodes st' = nodes st).
Proof.
  split.
  - intros configContent records. unfold parseClashNodes, scan.
    destruct (forOf scanLine _ initialState) as [st|] eqn:Hs; [|discriminate].
    intros [= <-]. eapply scan_from_complete; [exact Hs|constructor].
  - intros st st' line props Hr Hc Hs.
    destruct (scanLine_incomplete st line) as (st'' & Hs' & Hn & _).
    { exists props. auto. }
    congruence.
Qed.

Lemma emitted_records_are_complete_witness :
  Forall Complete [nodeA; nodeB]
  /\ nodes (warn inside (record [("name", str "n"); ("type", str "t");
                                 ("port", num 1)]%string)
                 (trim (recordLine bodyNoServer)))
     = nodes inside.
Proof.
  split.
  - apply (proj1 emitted_records_are_complete scenario).
    vm_compute. reflexivity.
  - apply (proj2 emitted_records_are_complete inside _
             (recordLine bodyNoServer)
             (record [("name", str "n"); ("type", str "t");
                      ("port", num 1)]%string)).
    + vm_compute. reflexivity.
    + rewrite <- hasRequiredFields_Complete. vm_compute. discriminate.
    + vm_compute. reflexivity.
Defined.

(** C9.  A record line that lacks a required field is skipped and nothing
    else: the parser returns, and what it returns for the document with the
    line is what it returns for the document without it, whatever the lines
    before and after are. *)
Theorem incomplete_record_is_skipped (pre post : list jsstring)
  (line : jsstring) :
  Forall (fun l => LF ∉ l) (pre ++ line :: post) ->
  IncompleteRecord line ->
  exists records : list Props,
    parseClashNodes (joinLines (pre ++ line :: post)) = Ok records
    /\ parseClashNodes (joinLines (pre ++ post)) = Ok records.
Proof.
  intros Hall Hinc.
  assert (Forall (fun l => LF ∉ l) (pre ++ post)) as Hall'.
  { apply Forall_app in Hall as [Hpre Hpost].
    apply Forall_cons in Hpost as [_ Hpost]. now apply Forall_app. }
  rewrite !parseClashNodes_joinLines by assumption.
  unfold scan. rewrite !forOf_app. cbn [forOf].
  destruct (scan_from_total pre initialState) as [st1 ->]. cbn [bind].
  destruct (scanLine_incomplete st1 line Hinc) as (st1' & -> & Hsame).
  cbn [bind].
  destruct (scan_from_total post st1) as [st2 Hst2].
  destruct (scan_from_sameNodes post _ _ _ Hsame Hst2) as (st2' & -> & Hn & _).
  rewrite Hst2. cbn [bind]. exists (nodes st2). now rewrite Hn.
Qed.

Lemma incomplete_record_is_skipped_witness :
  exists records : list Props,
    parseClashNodes
      (joinLines ([js "proxies:"]
                  ++ recordLine bodyNoServer :: [recordLine bodyFull]))
    = Ok records
    /\ parseClashNodes (joinLines ([js "proxies:"] ++ [recordLine bodyFull]))
       = Ok records.
Proof.
  apply incomplete_record_is_skipped.
  - apply (bool_decide_unpack _). vm_compute. exact I.
  - exists (record [("name", str "n"); ("type", str "t");
                    ("port", num 1)]%string).
    split; [vm_compute; reflexivity|].
    rewrite <- hasRequiredFields_Complete. vm_compute. discriminate.
Defined.

(** C10.  The parser returns an array on every input string: none of the
    property accesses and method calls in it meets [null] or [undefined]. *)
Theorem parseClashNodes_total (configContent : jsstring) :
  exists records : list Props, parseClashNodes configContent = Ok records.
Proof.
  unfold parseClashNodes, scan.
  destruct (scan_from_total (JsString.split [LF] configContent) initialState)
    as [st ->].
  simpl. eauto.
Qed.

(** ** Trimming *)

Section Trimming.

Implicit Types (s t a b : jsstring) (c : N).

Lemma trimStart_blank_app a s : Blank a -> trimStart (a ++ s) = trimStart s.
Proof.
  induction 1 as [|c a Hc _ IH]; [reflexivity|]. simpl. now rewrite Hc.
Qed.

Lemma trimStart_blank a : Blank a -> trimStart a = [].
Proof.
  intros H. rewrite <- (app_nil_r a). now rewrite trimStart_blank_app.
Qed.

Lemma trimStart_app_cons s c t b :
  trimStart s = c :: t -> trimStart (s ++ b) = (c :: t) ++ b.
Proof.
  induction s as [|x s IH]; simpl; [discriminate|].
  destruct (isWhiteSpace x); [exact IH|]. now intros [= <- <-].
Qed.

Lemma trimStart_nil_blank s : trimStart s = [] -> Blank s.
Proof.
  induction s as [|x s IH]; simpl; [constructor|].
  destruct (isWhiteSpace x) eqn:Hx; [|discriminate].
  intros H. apply Forall_cons. split; [exact Hx|exact (IH H)].
Qed.

Lemma Blank_rev a : Blank a -> Blank (rev a).
Proof. unfold Blank. intros H. now apply Forall_rev. Qed.

Lemma trimEnd_app_blank s b : Blank b -> trimEnd (s ++ b) = trimEnd s.
Proof.
  intros Hb. unfold trimEnd. rewrite rev_app_distr.
  now rewrite trimStart_blank_app by now apply Blank_rev.
Qed.

(** White space around a string does not change what [trim] returns. *)
Lemma trim_padded s s' : Padded s s' -> trim s' = trim s.
Proof.
  intros (a & b & Ha & Hb & ->). unfold trim.
  rewrite trimStart_blank_app by assumption.
  destruct (trimStart s) as [|c t] eqn:Hs.
  - apply trimStart_nil_blank in Hs.
    rewrite trimStart_blank_app, trimStart_blank by assumption. reflexivity.
  - rewrite (trimStart_app_cons _ _ _ b Hs).
    now apply trimEnd_app_blank.
Qed.

Lemma trimStart_suffix s : exists a, Blank a /\ s = a ++ trimStart s.
Proof.
  induction s as [|x s (a & Ha & IH)]; simpl.
  - exists []. split; [constructor|reflexivity].
  - destruct (isWhiteSpace x) eqn:Hx.
    + exists (x :: a). split; [now constructor|]. simpl. now rewrite <- IH.
    + exists []. split; [constructor|reflexivity].
Qed.

(** A string is its trimmed form with white space around it. *)
Lemma trim_Padded s : Padded (trim s) s.
Proof.
  unfold trim, trimEnd.
  destruct (trimStart_suffix s) as (a & Ha & Hs).
  destruct (trimStart_suffix (rev (trimStart s))) as (b & Hb & Hr).
  exists a, (rev b). split; [exact Ha|]. split; [now apply Blank_rev|].
  rewrite <- rev_app_distr, <- Hr, rev_involutive. exact Hs.
Qed.

Lemma trim_subset s c : c ∈ trim s -> c ∈ s.
Proof.
  destruct (trim_Padded s) as (a & b & _ & _ & Hs). intros Hc.
  rewrite Hs. apply elem_of_app. right. apply elem_of_app. now left.
Qed.

Lemma trimStart_idem s : trimStart (trimStart s) = trimStart s.
Proof.
  destruct (trimStart s) as [|c t] eqn:Hs; [reflexivity|].
  simpl. now rewrite (trimStart_head _ _ _ Hs).
Qed.

End Trimming.

(** ** How the scan composes *)

Section Composition.

Implicit Types (st : ScanState) (line : jsstring) (lines : list jsstring).

(** The loop body reads the section flag only; what it adds to the result
    array and to the console is what it adds from a fresh state. *)
Lemma scanLine_fresh st line st' :
  scanLine st line = Ok st' ->
  exists st0,
    scanLine (fresh st) line = Ok st0
    /\ nodes st' = nodes st ++ nodes st0
    /\ console st' = console st ++ console st0
    /\ inProxiesSection st' = inProxiesSection st0.
Proof.
  unfold scanLine.
  destruct (startsWith (js "proxies:") (trim line)).
  { intros [= <-]. eexists. split; [reflexivity|]. simpl.
    now rewrite !app_nil_r. }
  cbn [fresh inProxiesSection].
  destruct (inProxiesSection st) eqn:Hin.
  2:{ intros [= <-]. eexists. split; [reflexivity|]. simpl.
      now rewrite !app_nil_r. }
  destruct (leavesSection (trim line)).
  { intros [= <-]. eexists. split; [reflexivity|]. simpl.
    now rewrite !app_nil_r. }
  destruct (matched (match_ (trim line) nodePattern)) as [[|]|];
    cbn [bind]; [| |discriminate].
  2:{ intros [= <-]. eexists. split; [reflexivity|]. simpl.
      now rewrite !app_nil_r. }
  destruct (index (match_ (trim line) nodePattern) 1) as [body|];
    cbn [bind]; [|discriminate].
  destruct (parseProps body) as [props|]; cbn [bind]; [|discriminate].
  destruct (hasRequiredFields props); intros [= <-];
    (eexists; split; [reflexivity|]); simpl; now rewrite ?app_nil_r.
Qed.

Lemma fresh_same st1 st2 :
  inProxiesSection st1 = inProxiesSection st2 -> fresh st1 = fresh st2.
Proof. unfold fresh. now intros ->. Qed.

Lemma scan_from_fresh lines st st' :
  forOf scanLine lines st = Ok st' ->
  exists st0,
    forOf scanLine lines (fresh st) = Ok st0
    /\ nodes st' = nodes st ++ nodes st0
    /\ console st' = console st ++ console st0
    /\ inProxiesSection st' = inProxiesSection st0.
Proof.
  revert st st'. induction lines as [|l lines IH]; intros st st'; simpl.
  - intros [= <-]. eexists. split; [reflexivity|]. simpl.
    now rewrite !app_nil_r.
  - destruct (scanLine st l) as [st1|] eqn:Hl; [|discriminate]. cbn [bind].
    intros Hrest.
    destruct (scanLine_fresh _ _ _ Hl) as (s0 & -> & Hn & Hc & Hf).
    cbn [bind].
    destruct (IH _ _ Hrest) as (t & Ht & Hnt & Hct & Hft).
    destruct (scan_from_total lines s0) as [s0' Hs0'].
    destruct (IH _ _ Hs0') as (t' & Ht' & Hnt' & Hct' & Hft').
    rewrite (fresh_same _ _ Hf) in Ht. rewrite Ht in Ht'.
    injection Ht' as <-.
    exists s0'. split; [exact Hs0'|].
    repeat split.
    + now rewrite Hnt, Hn, Hnt', app_assoc.
    + now rewrite Hct, Hc, Hct', app_assoc.
    + congruence.
Qed.

End Composition.

(** ** Documents, line by line *)

Section Documents.

Implicit Types (st : ScanState) (line : jsstring)
  (pre mid post ls : list jsstring).

Lemma parseClashNodes_scan ls st :
  Forall (fun l => LF ∉ l) ls -> scan ls = Ok st ->
  parseClashNodes (joinLines ls) = Ok (nodes st).
Proof.
  intros Hall Hs. rewrite parseClashNodes_joinLines by assumption.
  now rewrite Hs.
Qed.

(** The records of a document come in the order of its lines: the records of
    the first lines of a document are the first records of the document. *)
Theorem records_keep_document_order ls post :
  Forall (fun l => LF ∉ l) (ls ++ post) ->
  exists a b : list Props,
    parseClashNodes (joinLines ls) = Ok a
    /\ parseClashNodes (joinLines (ls ++ post)) = Ok (a ++ b).
Proof.
  intros Hall. pose proof Hall as Hls. apply Forall_app in Hls as [Hls _].
  destruct (scan_from_total ls initialState) as [st1 H1].
  destruct (scan_from_total post st1) as [st2 H2].
  destruct (scan_from_fresh _ _ _ H2) as (t & _ & Hn & _).
  exists (nodes st1), (nodes t). split.
  - now apply parseClashNodes_scan.
  - rewrite <- Hn. apply parseClashNodes_scan; [exact Hall|].
    unfold scan. rewrite forOf_app. fold (scan ls). unfold scan at 1.
    rewrite H1. exact H2.
Qed.

Lemma records_keep_document_order_witness :
  exists a b : list Props,
    parseClashNodes (joinLines [js "proxies:"; recordLine bodyA]) = Ok a
    /\ parseClashNodes
         (joinLines ([js "proxies:"; recordLine bodyA] ++ [recordLine bodyB]))
       = Ok (a ++ b).
Proof.
  apply records_keep_document_order.
  apply (bool_decide_unpack _). vm_compute. exact I.
Defined.

(** A header line starts the scan anew: the records of a document are those
    of the lines above a header followed by those of the header and the lines
    below it.  In particular a second [proxies:] line opens the section
    again. *)
Theorem header_starts_anew pre post line :
  Forall (fun l => LF ∉ l) (pre ++ line :: post) ->
  isHeader line = true ->
  exists a b : list Props,
    parseClashNodes (joinLines pre) = Ok a
    /\ parseClashNodes (joinLines (line :: post)) = Ok b
    /\ parseClashNodes (joinLines (pre ++ line :: post)) = Ok (a ++ b).
Proof.
  intros Hall Hh. pose proof Hall as H'.
  apply Forall_app in H' as [Hpre Hpost].
  assert (forall st, scanLine st line = Ok (setSection st true)) as Hline.
  { intros st. unfold scanLine. fold (isHeader line). now rewrite Hh. }
  destruct (scan_from_total pre initialState) as [st1 H1].
  destruct (scan_from_total post (setSection st1 true)) as [st2 H2].
  destruct (scan_from_fresh _ _ _ H2) as (t & Ht & Hn & _).
  exists (nodes st1), (nodes t). repeat split.
  - now apply parseClashNodes_scan.
  - apply parseClashNodes_scan; [exact Hpost|].
    unfold scan. cbn [forOf]. rewrite Hline. exact Ht.
  - change (nodes st1) with (nodes (setSection st1 true)). rewrite <- Hn.
    apply parseClashNodes_scan; [exact Hall|].
    unfold scan. rewrite forOf_app. rewrite H1. cbn [bind forOf].
    rewrite Hline. exact H2.
Qed.

Lemma header_starts_anew_witness :
  exists a b : list Props,
    parseClashNodes
      (joinLines [js "proxies:"; recordLine bodyA; js "proxy-groups:"])
    = Ok a
    /\ parseClashNodes (joinLines [js "  proxies: # more"; recordLine bodyB])
       = Ok b
    /\ parseClashNodes
         (joinLines ([js "proxies:"; recordLine bodyA; js "proxy-groups:"]
                     ++ js "  proxies: # more" :: [recordLine bodyB]))
       = Ok (a ++ b).
Proof.
  apply header_starts_anew.
  - apply (bool_decide_unpack _). vm_compute. exact I.
  - vm_compute. reflexivity.
Defined.

(** While the scanner is outside the section, every line that is not a
    header is passed over: such lines can be removed from the document. *)
Theorem lines_outside_are_ignored pre mid post st :
  Forall (fun l => LF ∉ l) (pre ++ mid ++ post) ->
  scan pre = Ok st -> inProxiesSection st = false ->
  Forall (fun l => isHeader l = false) mid ->
  parseClashNodes (joinLines (pre ++ mid ++ post))
  = parseClashNodes (joinLines (pre ++ post)).
Proof.
  intros Hall Hpre Hout Hmid.
  assert (Forall (fun l => LF ∉ l) (pre ++ post)) as Hall'.
  { apply Forall_app in Hall as [H1 H2]. apply Forall_app in H2 as [_ H2].
    now apply Forall_app. }
  rewrite !parseClashNodes_joinLines by assumption.
  unfold scan in *. rewrite !forOf_app, Hpre. cbn [bind].
  now rewrite forOf_app, (scan_outside mid st Hout Hmid).
Qed.

Lemma lines_outside_are_ignored_witness :
  parseClashNodes
    (joinLines ([js "proxies:"; recordLine bodyA; js "rules:"]
                ++ [recordLine bodyB; js "  - DOMAIN,example.com,DIRECT"]
                ++ [js "proxies:"; recordLine bodyFull]))
  = parseClashNodes
      (joinLines ([js "proxies:"; recordLine bodyA; js "rules:"]
                  ++ [js "proxies:"; recordLine bodyFull])).
Proof.
  eapply lines_outside_are_ignored.
  - apply (bool_decide_unpack _). vm_compute. exact I.
  - vm_compute. reflexivity.
  - reflexivity.
  - apply (bool_decide_unpack _). vm_compute. exact I.
Defined.

Lemma scanLine_padded st l l' :
  Padded l l' -> scanLine st l' = scanLine st l.
Proof. intros H. unfold scanLine. now rewrite (trim_padded _ _ H). Qed.

(** White space in front of a line and behind it is of no account: the
    indentation of the lines, and a carriage return at their end, can be
    changed at will. *)
Theorem padding_is_ignored ls ls' :
  Forall2 Padded ls ls' ->
  Forall (fun l => LF ∉ l) ls -> Forall (fun l => LF ∉ l) ls' ->
  parseClashNodes (joinLines ls') = parseClashNodes (joinLines ls).
Proof.
  intros Hpad Hls Hls'. rewrite !parseClashNodes_joinLines by assumption.
  unfold scan. generalize initialState.
  induction Hpad as [|l l' ls ls' Hl _ IH]; intros st; [reflexivity|].
  apply Forall_cons in Hls as [_ Hls]. apply Forall_cons in Hls' as [_ Hls'].
  cbn [forOf]. rewrite (scanLine_padded _ _ _ Hl).
  destruct (scanLine st l) as [st1|]; cbn [bind]; [|reflexivity].
  specialize (IH Hls Hls' st1).
  destruct (forOf scanLine ls' st1), (forOf scanLine ls st1); cbn [bind] in *;
    congruence.
Qed.

Lemma padding_is_ignored_witness :
  parseClashNodes
    (joinLines [js "proxies:" ++ [13]; [9] ++ trim (recordLine bodyA) ++ [13]])
  = parseClashNodes (joinLines [js "proxies:"; trim (recordLine bodyA)]).
Proof.
  apply padding_is_ignored.
  - repeat constructor.
    + exists [], [13]. repeat split; repeat constructor.
    + exists [9], [13]. repeat split; repeat constructor.
  - apply (bool_decide_unpack _). vm_compute. exact I.
  - apply (bool_decide_unpack _). vm_compute. exact I.
Defined.

Lemma records_provenance (configContent : jsstring)
  (records : list Props) :
  parseClashNodes configContent = Ok records ->
  Forall (fun props =>
            exists line, line ∈ JsString.split [LF] configContent
                         /\ isHeader line = false
                         /\ recordProps line = Some props) records.
Proof.
  unfold parseClashNodes, scan.
  generalize (JsString.split [LF] configContent). intros lines.
  assert (forall (ls : list jsstring) (st st' : ScanState),
             forOf scanLine ls st = Ok st' ->
             Forall (fun props =>
                       exists line, line ∈ lines /\ isHeader line = false
                                    /\ recordProps line = Some props) (nodes st) ->
             (forall l, l ∈ ls -> l ∈ lines) ->
             Forall (fun props =>
                       exists line, line ∈ lines /\ isHeader line = false
                                    /\ recordProps line = Some props) (nodes st'))
    as Hinv.
  { induction ls as [|l ls IH]; intros st st'; cbn [forOf].
    - now intros [= <-].
    - destruct (scanLine_effect st l) as (st1 & -> & He). cbn [bind].
      intros Hrest Hst Hsub. apply (IH st1 st' Hrest).
      + destruct He; simpl; try assumption.
        apply Forall_app. split; [assumption|]. constructor; [|constructor].
        exists l. split; [apply Hsub; left|]. auto.
      + intros l' Hl'. apply Hsub. now right. }
  destruct (forOf scanLine lines initialState) as [st|] eqn:Hs; [|discriminate].
  cbn [bind]. intros [= <-]. eapply Hinv; [exact Hs|constructor|auto].
Qed.

(** Every record of the result is the properties of one of the lines of the
    document, and that line is not a header. *)
Theorem records_come_from_lines (configContent : jsstring)
  (records : list Props) :
  parseClashNodes configContent = Ok records ->
  Forall (fun props =>
            exists line, line ∈ JsString.split [LF] configContent
                         /\ isHeader line = false
                         /\ recordProps line = Some props) records.
Proof. apply records_provenance. Qed.

Lemma records_come_from_lines_witness :
  Forall (fun props =>
            exists line, line ∈ JsString.split [LF] scenario
                         /\ isHeader line = false
                         /\ recordProps line = Some props) [nodeA; nodeB].
Proof.
  apply records_come_from_lines. vm_compute. reflexivity.
Defined.

End Documents.

(** ** Pairs, keys and values *)

Section Pairs.

Implicit Types (s t pair key value body : jsstring) (props : Props) (c : N).

Lemma splitLoop_no_separator c s cur :
  c ∉ s -> splitLoop [c] 0 cur s = [cur ++ s].
Proof.
  revert cur. induction s as [|a s IH]; intros cur Hs.
  - simpl. now rewrite app_nil_r.
  - cbn [splitLoop startsWith].
    destruct (N.eqb_spec c a) as [<-|Hne].
    + exfalso. apply Hs. left.
    + cbn [andb]. rewrite IH.
      * now rewrite <- app_assoc.
      * intros Hin. apply Hs. now right.
Qed.

(** A pair without a colon stores nothing: the properties stay as they
    are. *)
Theorem pair_without_colon_is_dropped props pair :
  COLON ∉ pair -> parsePair props pair = Ok props.
Proof.
  intros H. unfold parsePair, splitLimit, JsString.split.
  now rewrite splitLoop_no_separator.
Qed.

Lemma pair_without_colon_is_dropped_witness :
  parsePair (record [("name", str "n")]%string) (js " tls ")
  = Ok (record [("name", str "n")]%string).
Proof.
  apply pair_without_colon_is_dropped.
  apply (bool_decide_unpack _). vm_compute. exact I.
Defined.

Lemma trim_idem s : trim (trim s) = trim s.
Proof. symmetry. apply trim_padded, trim_Padded. Qed.

Lemma substring_subset s (i j : Z) c : c ∈ substring s i j -> c ∈ s.
Proof.
  unfold substring. intros H.
  now apply subseteq_take, subseteq_drop in H.
Qed.

Lemma stripQuotes_subset s c : c ∈ stripQuotes s -> c ∈ s.
Proof.
  unfold stripQuotes.
  destruct (_ || _); [apply substring_subset|exact id].
Qed.

Lemma coerce_Coerced key value : Coerced key (coerce key value).
Proof.
  unfold coerce, eqb.
  destruct (bool_decide_reflect (key = js "port")) as [Hk|Hk];
    destruct (isNaN (Number value)) eqn:Hn; cbn [andb negb];
    try (split; [exact Hk|intros E; rewrite E in Hn; discriminate]);
    destruct (bool_decide_reflect (value = js "true")); try exact I;
    destruct (bool_decide_reflect (value = js "false")); try exact I;
    repeat split; try assumption; intros Hp; try contradiction;
    destruct (Number value); [reflexivity|discriminate..].
Qed.

Lemma coerce_ColonFree key value :
  COLON ∉ value -> ColonFree (coerce key value).
Proof.
  intros H. unfold coerce.
  destruct (_ && _); [exact I|].
  destruct (eqb value (js "true")); [exact I|].
  destruct (eqb value (js "false")); [exact I|exact H].
Qed.

(** What holds of every pair that is stored holds of every property. *)
Lemma parsePair_entries (P : jsstring -> jsvalue -> Prop) props pair props' :
  (forall a b : jsstring,
      splitLimit [COLON] pair 2 = [a; b] -> trim a <> js "__proto__" ->
      P (trim a) (coerce (trim a) (stripQuotes (trim b)))) ->
  map_Forall P props -> parsePair props pair = Ok props' ->
  map_Forall P props'.
Proof.
  intros HP Hprops. unfold parsePair.
  destruct (splitLimit [COLON] pair 2) as [|a [|b [|x l]]]; cbn;
    try (now intros [= <-]).
  intros [= <-]. unfold setProp, eqb.
  destruct (bool_decide_reflect (trim a = js "__proto__")) as [|Hne];
    [exact Hprops|].
  apply map_Forall_insert_2; [|exact Hprops]. now apply HP.
Qed.

Lemma parseProps_entries (P : jsstring -> jsvalue -> Prop) body props :
  (forall pair a b : jsstring,
      splitLimit [COLON] pair 2 = [a; b] -> trim a <> js "__proto__" ->
      P (trim a) (coerce (trim a) (stripQuotes (trim b)))) ->
  parseProps (Some body) = Ok props -> map_Forall P props.
Proof.
  intros HP. unfold parseProps. cbn [splitOf bind].
  generalize (RegExp.split body pairSeparator). intros pairs.
  assert (map_Forall P (∅ : Props)) as Hinit by apply map_Forall_empty.
  revert Hinit. generalize (∅ : Props). revert props.
  induction pairs as [|pair pairs IH]; intros props acc Hacc; cbn [forOf].
  - now intros [= <-].
  - destruct (parsePair acc pair) as [acc'|] eqn:Hp; [|discriminate].
    cbn [bind]. apply IH. eapply parsePair_entries; eauto.
Qed.

Lemma recordProps_entries (P : jsstring -> jsvalue -> Prop) (line : jsstring)
  props :
  (forall pair a b : jsstring,
      splitLimit [COLON] pair 2 = [a; b] -> trim a <> js "__proto__" ->
      P (trim a) (coerce (trim a) (stripQuotes (trim b)))) ->
  recordProps line = Some props -> map_Forall P props.
Proof.
  intros HP. unfold recordProps.
  destruct (index _ 1) as [[body|]|]; try discriminate.
  destruct (parseProps (Some body)) as [p|] eqn:Hp; [|discriminate].
  intros [= <-]. eapply parseProps_entries; eauto.
Qed.

Lemma records_entries (P : jsstring -> jsvalue -> Prop)
  (configContent : jsstring) (records : list Props) :
  (forall pair a b : jsstring,
      splitLimit [COLON] pair 2 = [a; b] -> trim a <> js "__proto__" ->
      P (trim a) (coerce (trim a) (stripQuotes (trim b)))) ->
  parseClashNodes configContent = Ok records ->
  Forall (map_Forall P) records.
Proof.
  intros HP Hparse. apply records_provenance in Hparse.
  eapply Forall_impl; [exact Hparse|]. cbn beta.
  intros props (line & _ & _ & Hr). eapply recordProps_entries; eauto.
Qed.

(** The values of a record are typed by their keys: only [port] is ever a
    number, and that number is not [NaN]; no string value reads [true] or
    [false]; a [port] that is a string is one [Number] cannot read. *)
Theorem values_are_coerced (configContent : jsstring)
  (records : list Props) :
  parseClashNodes configContent = Ok records ->
  Forall (map_Forall Coerced) records.
Proof.
  apply records_entries. intros. apply coerce_Coerced.
Qed.

Lemma values_are_coerced_witness :
  Forall (map_Forall Coerced) [nodeA; nodeB].
Proof. apply (values_are_coerced scenario). vm_compute. reflexivity. Defined.

(** The keys of a record are trimmed and hold no colon, none of them is
    [__proto__], and no string value of a record holds a colon. *)
Theorem keys_and_values_hold_no_colon (configContent : jsstring)
  (records : list Props) :
  parseClashNodes configContent = Ok records ->
  Forall (map_Forall (fun key v => KeyShape key /\ ColonFree v)) records.
Proof.
  apply records_entries. intros pair a b Hparts Hproto.
  assert ((COLON ∉ a) /\ (COLON ∉ b)) as [Ha Hb].
  { split; apply (parts_without_colon pair); rewrite Hparts;
      [left|right; left]. }
  split; [repeat split|].
  - apply trim_idem.
  - intros H. now apply Ha, trim_subset.
  - exact Hproto.
  - apply coerce_ColonFree. intros H.
    now apply Hb, trim_subset, stripQuotes_subset.
Qed.

Lemma keys_and_values_hold_no_colon_witness :
  Forall (map_Forall (fun key v => KeyShape key /\ ColonFree v))
         [nodeA; nodeB].
Proof.
  apply (keys_and_values_hold_no_colon scenario). vm_compute. reflexivity.
Defined.

End Pairs.

(** ** Quotes and numbers *)

Section Quotes.

Implicit Types (s ds : jsstring) (c q : N).

Lemma substring_inner q s :
  substring (q :: s ++ [q]) 1 (Z.of_nat (length (q :: s ++ [q])) - 1) = s.
Proof.
  unfold substring. rewrite length_cons, length_app. cbn [length].
  match goal with
  | |- firstn (?t - ?f) _ = _ =>
      assert (f = 1%nat) as -> by lia;
      assert (t = S (length s)) as -> by lia
  end.
  simpl. rewrite Nat.sub_0_r, drop_0. apply take_app_length.
Qed.

Lemma endsWith_snoc q s : endsWith [q] (s ++ [q]) = true.
Proof.
  unfold endsWith. rewrite rev_app_distr. simpl. now rewrite N.eqb_refl.
Qed.

Lemma endsWith_cons_snoc q c s : endsWith [q] (c :: s ++ [q]) = true.
Proof. exact (endsWith_snoc q (c :: s)). Qed.

Lemma stripQuotes_layers s :
  stripQuotes (quoted s) = s /\ stripQuotes (singleQuoted s) = s.
Proof.
  unfold stripQuotes, quoted, singleQuoted. split.
  - rewrite endsWith_cons_snoc.
    cbn [startsWith N.eqb Pos.eqb DQUOTE andb orb].
    apply substring_inner.
  - rewrite endsWith_cons_snoc.
    replace (startsWith [DQUOTE] (SQUOTE :: s ++ [SQUOTE])) with false
      by reflexivity.
    cbn [startsWith N.eqb Pos.eqb SQUOTE andb orb].
    apply substring_inner.
Qed.

(** Quotes around a value are taken off, whatever the value holds: one
    layer of double quotes, or one layer of single quotes. *)
Theorem stripQuotes_quoted s :
  stripQuotes (quoted s) = s /\ stripQuotes (singleQuoted s) = s.
Proof. apply stripQuotes_layers. Qed.

(** A value that does not start with a quote is left as it is. *)
Lemma stripQuotes_unquoted c s :
  c <> DQUOTE -> c <> SQUOTE -> stripQuotes (c :: s) = c :: s.
Proof.
  intros Hd Hs. unfold stripQuotes. cbn [startsWith].
  destruct (N.eqb_spec DQUOTE c); [congruence|].
  destruct (N.eqb_spec SQUOTE c); [congruence|]. reflexivity.
Qed.

Lemma isDigit_cases c :
  isDigit c = true ->
  c = 48 \/ c = 49 \/ c = 50 \/ c = 51 \/ c = 52 \/ c = 53 \/ c = 54
  \/ c = 55 \/ c = 56 \/ c = 57.
Proof.
  unfold isDigit. rewrite andb_true_iff, !N.leb_le. lia.
Qed.

Lemma isDigit_not_space c : isDigit c = true -> isWhiteSpace c = false.
Proof.
  intros H. apply isDigit_cases in H.
  repeat (destruct H as [->|H]; [reflexivity|]). now subst.
Qed.

Lemma trimStart_digits ds : Digits ds -> trimStart ds = ds.
Proof.
  intros [Hne Hall]. destruct Hall as [|c ds Hc _]; [congruence|].
  simpl. now rewrite (isDigit_not_space c Hc).
Qed.

Lemma Digits_rev ds : Digits ds -> Digits (rev ds).
Proof.
  intros [Hne Hall]. split; [|now apply Forall_rev].
  intros H. apply Hne. rewrite <- (rev_involutive ds), H. reflexivity.
Qed.

Lemma trim_digits ds : Digits ds -> trim ds = ds.
Proof.
  intros H. unfold trim, trimEnd. rewrite (trimStart_digits ds H).
  rewrite (trimStart_digits _ (Digits_rev _ H)). apply rev_involutive.
Qed.

Lemma spanDigits_digits ds :
  Forall (fun c => isDigit c = true) ds -> spanDigits ds = (ds, []).
Proof.
  induction 1 as [|c ds Hc _ IH]; [reflexivity|].
  simpl. now rewrite Hc, IH.
Qed.

Lemma numericLiteral_digits ds :
  Digits ds -> numericLiteral ds = unsignedDecimal false ds.
Proof.
  intros [Hne Hall]. destruct Hall as [|c ds Hc Hds]; [congruence|].
  apply isDigit_cases in Hc.
  destruct Hc as [->|Hc];
    [|repeat (destruct Hc as [->|Hc]; [reflexivity|]); now subst].
  destruct Hds as [|d ds Hd _]; [reflexivity|].
  apply isDigit_cases in Hd.
  repeat (destruct Hd as [->|Hd]; [reflexivity|]). now subst.
Qed.

Lemma unsignedDecimal_digits ds :
  Digits ds -> unsignedDecimal false ds = Finite false (decimalValue ds) 0.
Proof.
  intros [Hne Hall]. unfold unsignedDecimal, eqb.
  destruct (bool_decide_reflect (ds = js "Infinity")) as [->|_].
  { apply Forall_cons in Hall as [H _]. discriminate H. }
  rewrite (spanDigits_digits ds Hall).
  destruct ds as [|c ds']; [congruence|].
  cbn [exponentPart length]. now rewrite app_nil_r.
Qed.

(** [Number] reads a string of decimal digits as the number they write. *)
Lemma Number_digits ds :
  Digits ds -> Number ds = Finite false (decimalValue ds) 0.
Proof.
  intros H. unfold Number. rewrite (trim_digits ds H).
  destruct ds as [|c ds'] eqn:E; [now destruct H|]. rewrite <- E in *.
  rewrite numericLiteral_digits by assumption.
  now apply unsignedDecimal_digits.
Qed.

Lemma Digits_not_literal ds :
  Digits ds -> ds <> js "true" /\ ds <> js "false".
Proof.
  intros [_ Hall]. split; intros ->;
    apply Forall_cons in Hall as [H _]; discriminate H.
Qed.

(** A port written in decimal digits, in quotes or not, is stored as a
    number and never as a string; when the digits write an integer of at
    most 2 ^ 53, which a double holds exactly, that number is the integer
    they write (beyond it [Number] returns the nearest double, which the
    number type above does not compute).  Under any other key the digits
    stay a string. *)
Theorem digits_are_a_number_under_port_only ds (key : jsstring) :
  Digits ds ->
  (exists n : number,
      coerce (js "port") ds = VNumber n
      /\ coerce (js "port") (stripQuotes (quoted ds)) = VNumber n
      /\ isNaN n = false
      /\ (decimalValue ds <= 2 ^ 53 -> n = Finite false (decimalValue ds) 0))
  /\ (key <> js "port" -> coerce key ds = VString ds).
Proof.
  intros H. rewrite (proj1 (stripQuotes_layers ds)).
  destruct (Digits_not_literal ds H) as [Ht Hf].
  unfold coerce, eqb. rewrite (Number_digits ds H).
  rewrite (bool_decide_eq_true_2 _ (eq_refl (js "port"))).
  cbn [isNaN negb andb]. split.
  - exists (Finite false (decimalValue ds) 0). repeat split.
  - intros Hk. rewrite (bool_decide_eq_false_2 _ Hk). cbn [andb].
    now rewrite (bool_decide_eq_false_2 _ Ht), (bool_decide_eq_false_2 _ Hf).
Qed.

Lemma digits_are_a_number_under_port_only_witness :
  Digits (js "8443")
  /\ decimalValue (js "8443") <= 2 ^ 53
  /\ coerce (js "port") (js "8443") = VNumber (Finite false 8443 0)
  /\ coerce (js "port") (stripQuotes (quoted (js "8443")))
     = VNumber (Finite false 8443 0)
  /\ coerce (js "alterId") (js "8443") = VString (js "8443").
Proof.
  assert (Digits (js "8443")) as Hd.
  { split; [discriminate|]. apply (bool_decide_unpack _). vm_compute.
    exact I. }
  assert (decimalValue (js "8443") <= 2 ^ 53) as Hb.
  { vm_compute. discriminate. }
  destruct (digits_are_a_number_under_port_only (js "8443") (js "alterId") Hd)
    as [(n & H1 & H2 & _ & Hn) Hk].
  rewrite (Hn Hb) in H1, H2.
  split; [exact Hd|]. split; [exact Hb|]. split; [exact H1|].
  split; [exact H2|]. apply Hk. discriminate.
Defined.

End Quotes.

(** ** The matcher finds the matches of the pattern *)

Section MatcherCorrect.

Implicit Types (r : regex) (x y z : MatchState) (k : Continuation).

Lemma Matches_extends r x y : Matches r x y -> extends x y.
Proof.
  induction 1 as [x|c x s' Hr|neg cs x c s' Hr _|x c s' Hr _|x _|x _
                 |r1 r2 x y z _ IH1 _ IH2|r1 r2 x y _ IH|r1 r2 x y _ IH
                 |r x|r x y z _ IH1 _ _ IH2|r x y z _ IH1 _ IH2
                 |i r x y _ IH|r x y _ IH];
    try apply extends_refl;
    try (exists 1%nat; simpl; rewrite Hr; simpl; split; lia);
    try (eapply extends_trans; eassumption);
    try exact IH.
  exists 0%nat. simpl. split; lia.
Qed.

Lemma Matches_captures r x y :
  Matches r x y -> groupsOf r = [] -> captures y = captures x.
Proof.
  induction 1 as [x|c x s' Hr|neg cs x c s' Hr _|x c s' Hr _|x _|x _
                 |r1 r2 x y z _ IH1 _ IH2|r1 r2 x y _ IH|r1 r2 x y _ IH
                 |r x|r x y z _ IH1 _ _ IH2|r x y z _ IH1 _ IH2
                 |i r x y _ IH|r x y _ IH]; cbn [groupsOf]; intros Hg;
    try reflexivity; try discriminate.
  - apply app_eq_nil in Hg as [H1 H2]. now rewrite IH2, IH1.
  - apply app_eq_nil in Hg as [H1 H2]. auto.
  - apply app_eq_nil in Hg as [H1 H2]. auto.
  - rewrite (IH2 Hg), (IH1 Hg), Hg. reflexivity.
  - assert (Hs : groupsOf (Star r) = []) by exact Hg.
    rewrite (IH2 Hs), (IH1 Hg), Hg. reflexivity.
  - exact (IH Hg).
Qed.

(** Whatever the matcher returns comes from a match of the pattern that the
    continuation accepts. *)
Lemma repeatMatcher_sound r (n : nat) :
  (forall x k z, matcher r x k = Some z ->
                 exists y, Matches r x y /\ k y = Some z) ->
  forall x k z,
    repeatMatcher (matcher r) (groupsOf r) n x k = Some z ->
    exists y, Matches (Star r) x y /\ k y = Some z.
Proof.
  intros Hr. induction n as [|n IH]; intros x k z; cbn [repeatMatcher].
  - intros H. exists x. split; [constructor|exact H].
  - destruct (matcher r (clearCaptures (groupsOf r) x) _) as [z'|] eqn:Hm.
    + intros [= ->]. apply Hr in Hm as (y & Hy & Hk).
      destruct (Nat.eqb_spec (endIndex y) (endIndex x)) as [|Hne];
        [discriminate|].
      apply IH in Hk as (y' & Hy' & Hk). exists y'. split; [|exact Hk].
      eapply MStarStep; eassumption.
    + intros H. exists x. split; [constructor|exact H].
Qed.

Lemma matcher_sound r x k z :
  matcher r x k = Some z -> exists y, Matches r x y /\ k y = Some z.
Proof.
  revert x k z.
  induction r as [|c|neg cs| | | |r1 IH1 r2 IH2|r1 IH1 r2 IH2|r IH|r IH|i r IH
                 |r IH]; intros x k z; cbn [matcher].
  - intros H. exists x. split; [constructor|exact H].
  - unfold charMatcher. destruct (rest x) as [|c' s'] eqn:Hr; [discriminate|].
    destruct (N.eqb_spec c c') as [<-|]; [|discriminate].
    intros H. eexists. split; [apply MChar; exact Hr|exact H].
  - unfold charMatcher. destruct (rest x) as [|c' s'] eqn:Hr; [discriminate|].
    destruct (inClass neg cs c') eqn:Hc; [|discriminate].
    intros H. eexists. split; [eapply MClass; eassumption|exact H].
  - unfold charMatcher. destruct (rest x) as [|c' s'] eqn:Hr; [discriminate|].
    destruct (isWhiteSpace c') eqn:Hc; [|discriminate].
    intros H. eexists. split; [eapply MSpace; eassumption|exact H].
  - destruct (Nat.eqb_spec (endIndex x) 0); [|discriminate].
    intros H. exists x. split; [now constructor|exact H].
  - destruct (rest x) eqn:Hr; [|discriminate].
    intros H. exists x. split; [now constructor|exact H].
  - intros H. apply IH1 in H as (y & Hy & H). apply IH2 in H as (y' & Hy' & H).
    exists y'. split; [econstructor; eassumption|exact H].
  - destruct (matcher r1 x k) as [z'|] eqn:H1.
    + intros [= ->]. apply IH1 in H1 as (y & Hy & H).
      exists y. split; [now apply MAltL|exact H].
    + intros H. apply IH2 in H as (y & Hy & H).
      exists y. split; [now apply MAltR|exact H].
  - now apply repeatMatcher_sound.
  - intros H. apply IH in H as (y & Hy & H).
    apply repeatMatcher_sound in H as (y' & Hy' & H); [|exact IH].
    exists y'. split; [econstructor; eassumption|exact H].
  - intros H. apply IH in H as (y & Hy & H).
    eexists. split; [apply MGroup; exact Hy|exact H].
  - destruct (matcher r x Some) as [y|] eqn:Hm; [|discriminate].
    apply IH in Hm as (y' & Hy' & [= ->]).
    intros H. eexists. split; [apply MLookahead; exact Hy'|exact H].
Qed.

(** A match of the pattern that the continuation accepts is not missed:
    the matcher returns. *)
Lemma repeatMatcher_complete r :
  (forall x y k, Matches r x y -> k y <> None -> matcher r x k <> None) ->
  forall x y, Matches (Star r) x y ->
  forall (n : nat) k, (length (rest x) < n)%nat -> k y <> None ->
    repeatMatcher (matcher r) (groupsOf r) n x k <> None.
Proof.
  intros Hr x y H. remember (Star r) as sr eqn:E. revert E.
  induction H as [ | | | | | | | | |r0 x|r0 x y z Hxy _ Hne Hyz IH| | |];
    try discriminate; intros [= ->] n k Hn Hk;
    (destruct n as [|n]; [lia|]); cbn [repeatMatcher].
  - destruct (matcher r _ _); [discriminate|exact Hk].
  - assert (matcher r (clearCaptures (groupsOf r) x)
              (fun y0 => if (endIndex y0 =? endIndex x)%nat then None
                         else repeatMatcher (matcher r) (groupsOf r) n y0 k)
            <> None) as Hm.
    { apply (Hr _ y); [exact Hxy|].
      destruct (Nat.eqb_spec (endIndex y) (endIndex x)); [contradiction|].
      apply IH; [reflexivity| |exact Hk].
      apply Matches_extends in Hxy as (d & Hi & Hl). simpl in Hi, Hl. lia. }
    destruct (matcher r _ _); [discriminate|contradiction].
Qed.

Lemma matcher_complete r :
  plainLookaheads r ->
  forall x y k, Matches r x y -> k y <> None -> matcher r x k <> None.
Proof.
  induction r as [|c|neg cs| | | |r1 IH1 r2 IH2|r1 IH1 r2 IH2|r IH|r IH|i r IH
                 |r IH]; cbn [plainLookaheads]; intros Hp x y k H Hk;
    inversion H; subst; cbn [matcher]; unfold charMatcher.
  - exact Hk.
  - match goal with E : rest x = _ |- _ => rewrite E end.
    now rewrite N.eqb_refl.
  - match goal with E : rest x = _ |- _ => rewrite E end.
    match goal with E : inClass _ _ _ = true |- _ => now rewrite E end.
  - match goal with E : rest x = _ |- _ => rewrite E end.
    match goal with E : isWhiteSpace _ = true |- _ => now rewrite E end.
  - match goal with E : endIndex _ = 0%nat |- _ => now rewrite E end.
  - match goal with E : rest _ = [] |- _ => now rewrite E end.
  - destruct Hp as [Hp1 Hp2].
    eapply (IH1 Hp1); [eassumption|]. eapply (IH2 Hp2); eassumption.
  - destruct Hp as [Hp1 Hp2].
    pose proof (IH1 Hp1 _ _ _ ltac:(eassumption) Hk).
    destruct (matcher r1 x k); [discriminate|contradiction].
  - destruct Hp as [Hp1 Hp2].
    destruct (matcher r1 x k); [discriminate|].
    eapply (IH2 Hp2); eassumption.
  - eapply repeatMatcher_complete; [exact (IH Hp)|exact H|lia|exact Hk].
  - eapply repeatMatcher_complete; [exact (IH Hp)|exact H|lia|exact Hk].
  - eapply (IH Hp); [eassumption|].
    eapply repeatMatcher_complete; [exact (IH Hp)|eassumption|lia|exact Hk].
  - eapply (IH Hp); [eassumption|exact Hk].
  - destruct Hp as [Hg Hp].
    match goal with M : Matches r x ?y0 |- _ =>
      pose proof (IH Hp x y0 Some M ltac:(discriminate)) as Hm;
      pose proof (Matches_captures _ _ _ M Hg) as Hc
    end.
    destruct (matcher r x Some) as [y1|] eqn:E; [|contradiction].
    apply matcher_sound in E as (y2 & Hy2 & [= ->]).
    rewrite (Matches_captures _ _ _ Hy2 Hg), <- Hc. exact Hk.
Qed.

(** The matcher succeeds exactly when the pattern has a match. *)
Lemma matcher_Some r x :
  plainLookaheads r ->
  (matcher r x Some <> None <-> exists y, Matches r x y).
Proof.
  intros Hp. split.
  - destruct (matcher r x Some) as [z|] eqn:E; [|congruence].
    intros _. apply matcher_sound in E as (y & Hy & _). eauto.
  - intros (y & Hy). now apply (matcher_complete r Hp x y Some Hy).
Qed.

End MatcherCorrect.

(** ** Greedy repetition of one character *)

Section Greedy.

Implicit Types (p : N -> bool) (s w : jsstring) (k : Continuation)
  (caps : list (option jsstring)).

Lemma firstSome_app k (l1 l2 : list MatchState) :
  firstSome k (l1 ++ l2)
  = match firstSome k l1 with
    | Some z => Some z
    | None => firstSome k l2
    end.
Proof.
  induction l1 as [|y l1 IH]; [reflexivity|]. simpl.
  destruct (k y); [reflexivity|exact IH].
Qed.

Lemma firstSome_None k (l : list MatchState) :
  Forall (fun y => k y = None) l -> firstSome k l = None.
Proof. induction 1 as [|y l Hy _ IH]; [reflexivity|]. simpl. now rewrite Hy. Qed.

(** [a*] offers the states of [starTries] to its continuation, in order. *)
Lemma repeat_atom p s (n idx : nat) caps k :
  (length s < n)%nat ->
  repeatMatcher (charMatcher p) [] n
    {| endIndex := idx; rest := s; captures := caps |} k
  = firstSome k (starTries p idx caps s).
Proof.
  revert n idx. induction s as [|c s IH]; intros n idx Hn;
    (destruct n as [|n]; [simpl in Hn; lia|]);
    cbn [repeatMatcher]; unfold clearCaptures, charMatcher, advance;
    cbn [foldr rest endIndex captures starTries firstSome].
  - now destruct (k _).
  - destruct (p c); cbn [firstSome]; [|now destruct (k _)].
    replace (S idx =? idx)%nat with false
      by (symmetry; apply Nat.eqb_neq; lia).
    rewrite IH by (simpl in Hn; lia). rewrite firstSome_app.
    cbn [firstSome].
    destruct (firstSome k (starTries p (S idx) caps s)); [reflexivity|].
    now destruct (k {| endIndex := idx; rest := c :: s; captures := caps |}).
Qed.

Lemma star_space x k :
  matcher (Star Space) x k
  = firstSome k (starTries isWhiteSpace (endIndex x) (captures x) (rest x)).
Proof.
  destruct x as [idx s caps].
  exact (repeat_atom isWhiteSpace s _ idx caps k (Nat.lt_succ_diag_r _)).
Qed.

Lemma star_class (negated : bool) (cs : list N) x k :
  matcher (Star (Class negated cs)) x k
  = firstSome k (starTries (inClass negated cs) (endIndex x) (captures x)
                   (rest x)).
Proof.
  destruct x as [idx s caps].
  exact (repeat_atom (inClass negated cs) s _ idx caps k
           (Nat.lt_succ_diag_r _)).
Qed.

Lemma starTries_stops p (idx : nat) caps s :
  stops p s ->
  starTries p idx caps s
  = [{| endIndex := idx; rest := s; captures := caps |}].
Proof. destruct s as [|c s]; simpl; [reflexivity|]. now intros ->. Qed.

(** The longest run comes first. *)
Lemma starTries_app p (idx : nat) caps w s :
  Forall (fun c => p c = true) w ->
  exists l,
    starTries p idx caps (w ++ s)
    = starTries p (idx + length w) caps s ++ l.
Proof.
  intros Hw. revert idx. induction Hw as [|c w Hc _ IH]; intros idx.
  - exists []. simpl. now rewrite Nat.add_0_r, app_nil_r.
  - destruct (IH (S idx)) as [l Hl]. eexists.
    cbn [app starTries length]. rewrite Hc, Hl, <- app_assoc.
    now rewrite Nat.add_succ_r.
Qed.

Lemma starTries_elem p (idx : nat) caps s y :
  y ∈ starTries p idx caps s ->
  exists w, Forall (fun c => p c = true) w /\ s = w ++ rest y
            /\ endIndex y = (idx + length w)%nat /\ captures y = caps.
Proof.
  revert idx. induction s as [|c s IH]; intros idx; cbn [starTries].
  - intros ->%list_elem_of_singleton. exists []. simpl. auto.
  - destruct (p c) eqn:Hc.
    + intros [H| ->%list_elem_of_singleton]%elem_of_app.
      * apply IH in H as (w & Hw & -> & Hi & Hcaps).
        exists (c :: w). simpl. repeat split; auto. lia.
      * exists []. simpl. auto.
    + intros ->%list_elem_of_singleton. exists []. simpl. auto.
Qed.

End Greedy.

(** ** The grammar of a record line *)

Section RecordGrammar.

Implicit Types (t inner body w : jsstring) (x y : MatchState).

Lemma matchAt_nodePattern inner :
  matchAt nodePattern 0 (js "- {" ++ inner)
  = firstSome afterBrace (starTries isWhiteSpace 3 [None] inner).
Proof.
  transitivity
    (matcher (Star Space)
       {| endIndex := 3; rest := inner; captures := [None] |} afterBrace);
    [reflexivity|].
  exact (star_space _ afterBrace).
Qed.

Lemma afterBrace_close (idx : nat) caps :
  afterBrace {| endIndex := idx; rest := [125]; captures := caps |} = None.
Proof. reflexivity. Qed.

Lemma afterBrace_body (idx : nat) (c : N) body caps :
  125 ∉ c :: body ->
  afterBrace {| endIndex := idx; rest := (c :: body) ++ [125];
                captures := caps |}
  = Some {| endIndex := S (idx + length (c :: body)); rest := [];
            captures := <[0%nat := Some (c :: body)]> caps |}.
Proof.
  intros Hno. unfold afterBrace. cbn [matcher].
  unfold clearCaptures at 1, charMatcher at 1.
  cbn [groupsOf foldr rest endIndex captures app].
  assert (inClass true [125] c = true) as ->.
  { unfold inClass. cbn [existsb]. destruct (N.eqb_spec c 125) as [->|];
      [exfalso; apply Hno; left|reflexivity]. }
  unfold advance. cbn [rest endIndex captures].
  rewrite repeat_atom by lia.
  assert (Forall (fun a => inClass true [125] a = true) body) as Hbody.
  { apply Forall_forall. intros a Ha. unfold inClass. cbn [existsb].
    destruct (N.eqb_spec a 125) as [->|]; [|reflexivity].
    exfalso. apply Hno. now right. }
  destruct (starTries_app (inClass true [125]) (S idx) caps body [125] Hbody)
    as [l ->].
  cbn [starTries inClass existsb N.eqb Pos.eqb orb xorb app firstSome rest
       endIndex captures length].
  change (fun x (k : Continuation) => charMatcher isWhiteSpace x k)
    with (charMatcher isWhiteSpace).
  rewrite repeat_atom by (simpl; lia).
  cbn [starTries isWhiteSpace N.leb N.compare Pos.compare Pos.compare_cont
       andb firstSome charMatcher rest N.eqb Pos.eqb advance endIndex
       captures Nat.pred].
  unfold advance. cbn [endIndex captures].
  replace (S idx + length body - idx)%nat with (S (length body)) by lia.
  cbn [firstn]. rewrite take_app_length.
  do 2 f_equal. lia.
Qed.

(** A line of this form matches, and what it captures is [recordBody]. *)
Lemma match_record_line inner :
  inner <> [] -> 125 ∉ inner ->
  match_ (js "- {" ++ inner ++ [125]) nodePattern
  = Some [Some (js "- {" ++ inner ++ [125]); Some (recordBody inner)].
Proof.
  intros Hne Hno. unfold match_.
  assert (exists y,
             matchAt nodePattern 0 (js "- {" ++ inner ++ [125]) = Some y
             /\ endIndex y = (4 + length inner)%nat
             /\ captures y = [Some (recordBody inner)]) as (y & Hy & Hi & Hc).
  { rewrite matchAt_nodePattern. unfold recordBody.
    destruct (trimStart_suffix inner) as (a & Ha & Hin).
    destruct (trimStart inner) as [|c body] eqn:Ht.
    - rewrite app_nil_r in Hin. subst a.
      destruct (exists_last Hne) as (a & c & ->).
      apply Forall_app in Ha as [Ha Hc].
      apply Forall_cons in Hc as [Hc _].
      rewrite <- app_assoc.
      destruct (starTries_app isWhiteSpace 3 [None] a ([c] ++ [125]) Ha)
        as [l ->].
      cbn [app starTries]. rewrite Hc.
      cbn [starTries isWhiteSpace N.leb N.compare Pos.compare
           Pos.compare_cont andb app firstSome].
      rewrite afterBrace_close.
      rewrite (afterBrace_body _ c [] [None]).
      + rewrite last_snoc. eexists. split; [reflexivity|].
        cbn [endIndex captures length]. rewrite length_app. cbn [length].
        split; [lia|reflexivity].
      + intros H. apply Hno. apply elem_of_app. now right.
    - rewrite Hin in *. rewrite <- app_assoc.
      destruct (starTries_app isWhiteSpace 3 [None] a ((c :: body) ++ [125])
                  Ha) as [l ->].
      rewrite starTries_stops by exact (trimStart_head _ _ _ Ht).
      cbn [app firstSome]. rewrite (afterBrace_body _ c body [None]).
      + eexists. split; [reflexivity|].
        cbn [endIndex captures]. rewrite length_app. split; [lia|reflexivity].
      + intros H. apply Hno. apply elem_of_app. now right. }
  change (js "- {") with [45; 32; 123] in *.
  cbn [app execFrom] in *. rewrite Hy, Hi, Hc.
  do 3 f_equal. rewrite Nat.sub_0_r.
  change (4 + length inner)%nat with (S (S (S (S (length inner))))).
  cbn [firstn]. do 3 f_equal.
  apply take_ge. rewrite length_app. simpl. lia.
Qed.

Lemma Matches_star_atom r (p : N -> bool) :
  (forall x y, Matches r x y -> exists c, rest x = c :: rest y /\ p c = true) ->
  forall x y, Matches (Star r) x y ->
  exists w, rest x = w ++ rest y /\ Forall (fun c => p c = true) w.
Proof.
  intros Hr x y H. remember (Star r) as sr eqn:E. revert E.
  induction H as [ | | | | | | | | |r0 x|r0 x y z Hxy _ Hne Hyz IH| | |];
    try discriminate; intros [= ->].
  - exists []. split; [reflexivity|constructor].
  - destruct (IH eq_refl) as (w & Hw & Hall).
    apply Hr in Hxy as (c & Hc & Hp). cbn [clearCaptures rest] in Hc.
    exists (c :: w). split; [now rewrite Hc, Hw|now constructor].
Qed.

Lemma Matches_space x y :
  Matches Space x y -> exists c, rest x = c :: rest y /\ isWhiteSpace c = true.
Proof. inversion 1; subst. eauto. Qed.

Lemma Matches_class (negated : bool) (cs : list N) x y :
  Matches (Class negated cs) x y ->
  exists c, rest x = c :: rest y /\ inClass negated cs c = true.
Proof. inversion 1; subst. eauto. Qed.

Lemma Matches_char (c : N) x y :
  Matches (Char c) x y -> rest x = c :: rest y.
Proof. inversion 1; subst. assumption. Qed.

(** A line that matches the record pattern is [- {], a text without a
    closing brace, and [}]. *)
Lemma match_nodePattern_shape t arr :
  match_ t nodePattern = Some arr ->
  exists inner, t = js "- {" ++ inner ++ [125] /\ inner <> [] /\ 125 ∉ inner.
Proof.
  unfold match_. intros H.
  assert (exists y, matchAt nodePattern 0 t = Some y) as [y Hy].
  { destruct t as [|c t]; cbn [execFrom] in H.
    - destruct (matchAt nodePattern 0 []); [eauto|discriminate].
    - rewrite execFrom_nodePattern_later in H.
      destruct (matchAt nodePattern 0 (c :: t)); [eauto|discriminate]. }
  clear H. unfold matchAt in Hy.
  apply matcher_sound in Hy as (y' & Hm & _).
  cbn [pattern nodePattern cat foldr] in Hm.
  repeat match goal with
         | M : Matches (Seq _ _) _ _ |- _ => inversion M; subst; clear M
         end.
  repeat match goal with
         | M : Matches Bol _ _ |- _ => inversion M; subst; clear M
         | M : Matches Empty _ _ |- _ => inversion M; subst; clear M
         | M : Matches Eol _ _ |- _ => inversion M; subst; clear M
         | M : Matches (Group _ _) _ _ |- _ => inversion M; subst; clear M
         | M : Matches (Plus _) _ _ |- _ => inversion M; subst; clear M
         | M : Matches (Char _) _ _ |- _ => apply Matches_char in M
         | M : Matches (Class _ _) _ _ |- _ => apply Matches_class in M
         | M : Matches (Star Space) _ _ |- _ =>
             apply (Matches_star_atom _ _ Matches_space) in M
         | M : Matches (Star (Class _ _)) _ _ |- _ =>
             apply (Matches_star_atom _ _ (Matches_class _ _)) in M
         end.
  cbn [rest clearCaptures] in *.
  destruct H5 as (w1 & E1 & Hw1), H6 as (c & E2 & Hc),
    H9 as (w2 & E3 & Hw2), H7 as (w3 & E4 & Hw3).
  exists (w1 ++ (c :: w2) ++ w3). split; [|split].
  - change (js "- {") with [45; 32; 123]. cbn [app].
    rewrite H2, H3, H4, E1, E2, E3, E4, H8, H0.
    rewrite <- !app_assoc. simpl. rewrite <- ?app_assoc. reflexivity.
  - destruct w1; discriminate.
  - assert (forall a, inClass true [125] a = true -> a <> 125) as Hcls.
    { intros a Ha ->. discriminate Ha. }
    assert (forall w, Forall (fun a => isWhiteSpace a = true) w -> 125 ∉ w)
      as Hblank.
    { intros w Hw Hin. rewrite Forall_forall in Hw.
      apply Hw in Hin. discriminate Hin. }
    rewrite !elem_of_app, elem_of_cons. intros [Hin|[[Hin|Hin]|Hin]].
    + now apply (Hblank w1).
    + now apply (Hcls c).
    + rewrite Forall_forall in Hw2. exact (Hcls 125 (Hw2 _ Hin) eq_refl).
    + now apply (Hblank w3).
Qed.

Lemma nodePattern_grammar t arr :
  match_ t nodePattern = Some arr
  <-> exists inner,
        t = js "- {" ++ inner ++ js "}" /\ inner <> [] /\ (125 ∉ inner)
        /\ arr = [Some t; Some (recordBody inner)].
Proof.
  change (js "}") with [125]. split.
  - intros H. destruct (match_nodePattern_shape t arr H)
      as (inner & -> & Hne & Hno).
    rewrite (match_record_line inner Hne Hno) in H. injection H as <-.
    exists inner. auto.
  - intros (inner & -> & Hne & Hno & ->). now apply match_record_line.
Qed.

(** The record pattern: a trimmed line matches it exactly when it is [- {],
    a text that is not empty and holds no closing brace, and [}]; the match
    is the line, and the capture is that text from its first character that
    is not white space on (its last character when it is blank). *)
Theorem record_line_grammar t arr :
  match_ t nodePattern = Some arr
  <-> exists inner,
        t = js "- {" ++ inner ++ js "}" /\ inner <> [] /\ (125 ∉ inner)
        /\ arr = [Some t; Some (recordBody inner)].
Proof. apply nodePattern_grammar. Qed.

Lemma record_line_grammar_witness :
  match_ (js "- { a: b }") nodePattern
  = Some [Some (js "- { a: b }"); Some (js "a: b ")].
Proof.
  apply record_line_grammar. exists (js " a: b ").
  repeat split; [discriminate|].
  apply (bool_decide_unpack _). vm_compute. exact I.
Defined.

(** A line [- { ... }] with a closing brace inside, as a nested mapping
    has, or with nothing between the braces, is passed over without a
    record and without a warning. *)
Theorem nested_braces_are_skipped (st : ScanState) (line inner : jsstring) :
  trim line = js "- {" ++ inner ++ js "}" ->
  inner = [] \/ 125 ∈ inner ->
  scanLine st line = Ok st.
Proof.
  intros Ht Hin.
  assert (match_ (trim line) nodePattern = None) as Hm.
  { destruct (match_ (trim line) nodePattern) as [arr|] eqn:E; [|reflexivity].
    apply nodePattern_grammar in E as (inner' & E & Hne & Hno & _).
    rewrite Ht in E. apply app_inv_head in E.
    apply app_inj_tail in E as [<- _]. destruct Hin; contradiction. }
  assert (startsWith (js "-") (trim line) = true) as Hd
    by (rewrite Ht; reflexivity).
  unfold scanLine. rewrite (dash_not_header _ Hd), (dash_stays _ Hd), Hm.
  now destruct (inProxiesSection st).
Qed.

Lemma nested_braces_are_skipped_witness :
  scanLine inside (js "  - { name: n, ws-headers: {Host: h}, port: 1 }")
  = Ok inside.
Proof.
  apply (nested_braces_are_skipped inside _
           (js " name: n, ws-headers: {Host: h}, port: 1 ")).
  - vm_compute. reflexivity.
  - right. apply (bool_decide_unpack _). vm_compute. exact I.
Defined.

End RecordGrammar.

(** ** The separator of the pairs *)

Section Separator.

Implicit Types (s w u v : jsstring) (x y : MatchState) (q : quoting)
  (caps : list (option jsstring)).

#[local] Abbreviation isNotQuote := (inClass true [DQUOTE; SQUOTE]).
#[local] Abbreviation isNotSingle := (inClass true [SQUOTE]).

Lemma pairSeparator_pattern :
  pattern pairSeparator
  = cat [Char COMMA; Star Space; Lookahead quotesClosed].
Proof. reflexivity. Qed.

Lemma quotesClosed_plain : plainLookaheads quotesClosed.
Proof. cbn. tauto. Qed.

Lemma quoteRun_app q u v : quoteRun q (u ++ v) = quoteRun (quoteRun q u) v.
Proof. apply fold_left_app. Qed.

Lemma quoteRun_Stuck s : quoteRun Stuck s = Stuck.
Proof. induction s; [reflexivity|assumption]. Qed.

Lemma isNotQuote_spec (c : N) :
  isNotQuote c = true <-> c <> DQUOTE /\ c <> SQUOTE.
Proof.
  unfold inClass. cbn [existsb xorb].
  destruct (N.eqb_spec c DQUOTE), (N.eqb_spec c SQUOTE); cbn; split;
    intros; try discriminate; try tauto; intuition congruence.
Qed.

Lemma isNotSingle_spec (c : N) : isNotSingle c = true <-> c <> SQUOTE.
Proof.
  unfold inClass. cbn [existsb xorb].
  destruct (N.eqb_spec c SQUOTE); cbn; split; intros; try discriminate;
    congruence.
Qed.

Lemma quoteRun_notQuote q w :
  q <> InSingle -> Forall (fun c => isNotQuote c = true) w ->
  quoteRun q w = q.
Proof.
  intros Hq Hw. induction Hw as [|c w Hc _ IH]; [reflexivity|].
  apply isNotQuote_spec in Hc as [Hd Hs]. cbn [quoteRun fold_left] in *.
  replace (quoteStep q c) with q; [exact IH|].
  destruct q; cbn; try reflexivity; try contradiction;
    destruct (N.eqb_spec c DQUOTE), (N.eqb_spec c SQUOTE);
    congruence.
Qed.

Lemma quoteRun_inSingle w :
  Forall (fun c => isNotSingle c = true) w -> quoteRun InSingle w = InSingle.
Proof.
  induction 1 as [|c w Hc _ IH]; [reflexivity|].
  apply isNotSingle_spec in Hc. cbn [quoteRun fold_left quoteStep] in *.
  destruct (N.eqb_spec c SQUOTE); [contradiction|exact IH].
Qed.

Lemma quoteRun_blank q w : Blank w -> quoteRun q w = q.
Proof.
  intros Hw. induction Hw as [|c w Hc _ IH]; [reflexivity|].
  assert (c <> DQUOTE /\ c <> SQUOTE) as [Hd Hs]
    by (split; intros ->; discriminate Hc).
  cbn [quoteRun fold_left] in *. replace (quoteStep q c) with q; [exact IH|].
  destruct q; cbn; try reflexivity;
    destruct (N.eqb_spec c DQUOTE), (N.eqb_spec c SQUOTE); congruence.
Qed.

Lemma closes_blank_app w s : Blank w -> closes (w ++ s) = closes s.
Proof.
  intros Hw. unfold closes.
  now rewrite quoteRun_app, (quoteRun_blank Outside w Hw).
Qed.

Lemma quoteRun_double w1 w2 w3 :
  Forall (fun c => isNotQuote c = true) w1 ->
  Forall (fun c => isNotQuote c = true) w2 ->
  Forall (fun c => isNotQuote c = true) w3 ->
  quoteRun Outside (w1 ++ DQUOTE :: w2 ++ DQUOTE :: w3) = Outside.
Proof.
  intros H1 H2 H3.
  rewrite quoteRun_app, (quoteRun_notQuote Outside w1) by easy.
  change (quoteRun Outside (DQUOTE :: ?t)) with (quoteRun InDouble t).
  rewrite quoteRun_app, (quoteRun_notQuote InDouble w2) by easy.
  change (quoteRun InDouble (DQUOTE :: ?t)) with (quoteRun Outside t).
  now apply quoteRun_notQuote.
Qed.

Lemma quoteRun_single w1 w2 w3 :
  Forall (fun c => isNotQuote c = true) w1 ->
  Forall (fun c => isNotSingle c = true) w2 ->
  Forall (fun c => isNotQuote c = true) w3 ->
  quoteRun Outside (w1 ++ SQUOTE :: w2 ++ SQUOTE :: w3) = Outside.
Proof.
  intros H1 H2 H3.
  rewrite quoteRun_app, (quoteRun_notQuote Outside w1) by easy.
  change (quoteRun Outside (SQUOTE :: ?t)) with (quoteRun InSingle t).
  rewrite quoteRun_app, (quoteRun_inSingle w2) by easy.
  change (quoteRun InSingle (SQUOTE :: ?t)) with (quoteRun Outside t).
  now apply quoteRun_notQuote.
Qed.

(** *** From a match of the lookahead to closed quotes *)

Lemma Matches_quotesClosed_closes x y :
  Matches quotesClosed x y -> closes (rest x) = true.
Proof.
  assert (forall r x y, (r = doubleQuotedSpan \/ r = singleQuotedSpan) ->
            Matches r x y ->
            exists w, rest x = w ++ rest y /\ quoteRun Outside w = Outside)
    as Hspan.
  { intros r x0 y0 [->| ->] Hm; cbn [doubleQuotedSpan singleQuotedSpan
                                       cat foldr] in Hm;
      repeat match goal with
             | M : Matches (Seq _ _) _ _ |- _ => inversion M; subst; clear M
             end;
      repeat match goal with
             | M : Matches Empty _ _ |- _ => inversion M; subst; clear M
             | M : Matches (Char _) _ _ |- _ => apply Matches_char in M
             | M : Matches (Star notQuote) _ _ |- _ =>
                 apply (Matches_star_atom _ _ (Matches_class _ _)) in M;
                 destruct M as (? & ? & ?)
             | M : Matches (Star (Class _ _)) _ _ |- _ =>
                 apply (Matches_star_atom _ _ (Matches_class _ _)) in M;
                 destruct M as (? & ? & ?)
             end.
    - match goal with
      | E1 : rest x0 = ?w1 ++ _, E2 : rest _ = DQUOTE :: rest _,
        E3 : rest _ = ?w2 ++ _, E4 : rest _ = DQUOTE :: rest _,
        E5 : rest _ = ?w3 ++ rest y0 |- _ =>
          exists (w1 ++ DQUOTE :: w2 ++ DQUOTE :: w3); split;
          [rewrite E1, E2, E3, E4, E5, <- !app_assoc; cbn;
           now rewrite <- !app_assoc|]
      end.
      now apply quoteRun_double.
    - match goal with
      | E1 : rest x0 = ?w1 ++ _, E2 : rest _ = SQUOTE :: rest _,
        E3 : rest _ = ?w2 ++ _, E4 : rest _ = SQUOTE :: rest _,
        E5 : rest _ = ?w3 ++ rest y0 |- _ =>
          exists (w1 ++ SQUOTE :: w2 ++ SQUOTE :: w3); split;
          [rewrite E1, E2, E3, E4, E5, <- !app_assoc; cbn;
           now rewrite <- !app_assoc|]
      end.
      now apply quoteRun_single. }
  assert (forall x y,
            Matches (Star (Alt doubleQuotedSpan singleQuotedSpan)) x y ->
            exists w, rest x = w ++ rest y /\ quoteRun Outside w = Outside)
    as Hstar.
  { intros x0 y0 H.
    remember (Star (Alt doubleQuotedSpan singleQuotedSpan)) as sr eqn:E.
    revert E.
    induction H as [ | | | | | | | | |r0 x0|r0 x0 y0 z0 Hxy _ Hne Hyz IH| | |];
      try discriminate; intros [= ->].
    - exists []. split; reflexivity.
    - destruct (IH eq_refl) as (w & Hw & Hr).
      assert (exists w0, rest x0 = w0 ++ rest y0
                         /\ quoteRun Outside w0 = Outside)
        as (w0 & Hw0 & Hr0).
      { inversion Hxy; subst;
          match goal with
          | M : Matches _ (clearCaptures _ _) _ |- _ =>
              eapply Hspan in M; [exact M|auto]
          end. }
      exists (w0 ++ w). split; [now rewrite Hw0, Hw, app_assoc|].
      now rewrite quoteRun_app, Hr0. }
  unfold quotesClosed. cbn [cat foldr]. intros Hm.
  inversion Hm as [ | | | | | |r1 r2 x0 y1 z0 H1 H2| | | | | | | ]; subst.
  inversion H2 as [ | | | | | |r1 r2 x0 y2 z0 H3 H4| | | | | | | ]; subst.
  inversion H4 as [ | | | | | |r1 r2 x0 y3 z0 H5 H6| | | | | | | ]; subst.
  inversion H5; subst. inversion H6; subst.
  apply Hstar in H1 as (w1 & E1 & R1).
  apply (Matches_star_atom _ _ (Matches_class _ _)) in H3 as (w2 & E2 & R2).
  unfold closes. rewrite E1, E2.
  match goal with E : rest _ = [] |- _ => rewrite E end.
  rewrite app_nil_r, quoteRun_app, R1.
  now rewrite quoteRun_notQuote by (assumption || discriminate).
Qed.

(** *** From closed quotes to a match of the lookahead *)

Lemma star_class_intro (negated : bool) (cs : list N) w s (idx : nat) caps :
  Forall (fun c => inClass negated cs c = true) w ->
  Matches (Star (Class negated cs))
    {| endIndex := idx; rest := w ++ s; captures := caps |}
    {| endIndex := idx + length w; rest := s; captures := caps |}.
Proof.
  intros Hw. revert idx. induction Hw as [|c w Hc _ IH]; intros idx.
  - cbn [app length]. rewrite Nat.add_0_r. constructor.
  - cbn [app length]. rewrite Nat.add_succ_r.
    apply (MStarStep _ _ {| endIndex := S idx; rest := w ++ s;
                            captures := caps |}).
    + exact (MClass negated cs
               {| endIndex := idx; rest := c :: w ++ s; captures := caps |}
               c (w ++ s) eq_refl Hc).
    + cbn [endIndex]. lia.
    + apply IH.
Qed.

Lemma char_intro (c : N) s (idx : nat) caps :
  Matches (Char c)
    {| endIndex := idx; rest := c :: s; captures := caps |}
    {| endIndex := S idx; rest := s; captures := caps |}.
Proof.
  exact (MChar c {| endIndex := idx; rest := c :: s; captures := caps |} s
           eq_refl).
Qed.

Lemma closeDouble s :
  quoteRun InDouble s = Outside ->
  exists w s', s = w ++ DQUOTE :: s'
               /\ Forall (fun c => isNotQuote c = true) w
               /\ quoteRun Outside s' = Outside.
Proof.
  induction s as [|c s IH]; [discriminate|].
  cbn [quoteRun fold_left quoteStep].
  destruct (N.eqb_spec c DQUOTE) as [->|Hd].
  - intros H. exists [], s. repeat split; [constructor|exact H].
  - destruct (N.eqb_spec c SQUOTE) as [->|Hs].
    + fold (quoteRun Stuck s). rewrite quoteRun_Stuck. discriminate.
    + intros H. destruct (IH H) as (w & s' & -> & Hw & Hr).
      exists (c :: w), s'. repeat split; [|exact Hr].
      constructor; [now apply isNotQuote_spec|exact Hw].
Qed.

Lemma closeSingle s :
  quoteRun InSingle s = Outside ->
  exists w s', s = w ++ SQUOTE :: s'
               /\ Forall (fun c => isNotSingle c = true) w
               /\ quoteRun Outside s' = Outside.
Proof.
  induction s as [|c s IH]; [discriminate|].
  cbn [quoteRun fold_left quoteStep].
  destruct (N.eqb_spec c SQUOTE) as [->|Hs].
  - intros H. exists [], s. repeat split; [constructor|exact H].
  - intros H. destruct (IH H) as (w & s' & -> & Hw & Hr).
    exists (c :: w), s'. repeat split; [|exact Hr].
    constructor; [now apply isNotSingle_spec|exact Hw].
Qed.

Lemma spanNotQuote s :
  exists w r, s = w ++ r /\ Forall (fun c => isNotQuote c = true) w
              /\ (r = [] \/ exists r', r = DQUOTE :: r' \/ r = SQUOTE :: r').
Proof.
  induction s as [|c s (w & r & -> & Hw & Hr)].
  - exists [], []. repeat split; [constructor|now left].
  - destruct (N.eqb_spec c DQUOTE) as [->|Hd].
    { exists [], (DQUOTE :: w ++ r). repeat split; [constructor|].
      right. eauto. }
    destruct (N.eqb_spec c SQUOTE) as [->|Hs].
    { exists [], (SQUOTE :: w ++ r). repeat split; [constructor|].
      right. eauto. }
    exists (c :: w), r. repeat split; [|exact Hr].
    constructor; [now apply isNotQuote_spec|exact Hw].
Qed.

Lemma spans_intro (n : nat) s (idx : nat) caps :
  (length s <= n)%nat -> quoteRun Outside s = Outside ->
  exists u v,
    s = u ++ v /\ Forall (fun c => isNotQuote c = true) v
    /\ Matches (Star (Alt doubleQuotedSpan singleQuotedSpan))
         {| endIndex := idx; rest := s; captures := caps |}
         {| endIndex := idx + length u; rest := v; captures := caps |}.
Proof.
  revert s idx. induction n as [|n IH]; intros s idx Hn Hrun.
  { destruct s; [|simpl in Hn; lia]. exists [], [].
    repeat split; [constructor|]. cbn [length]. rewrite Nat.add_0_r.
    constructor. }
  destruct (spanNotQuote s) as (w & r & -> & Hw & [->|[r' [->| ->]]]).
  - exists [], (w ++ []). repeat split; [now rewrite app_nil_r|].
    cbn [length]. rewrite Nat.add_0_r. constructor.
  - rewrite quoteRun_app, (quoteRun_notQuote Outside w) in Hrun by easy.
    change (quoteRun Outside (DQUOTE :: r')) with (quoteRun InDouble r')
      in Hrun.
    destruct (closeDouble r' Hrun) as (w2 & s' & -> & Hw2 & Hs').
    destruct (IH s' (S (S (idx + length w) + length w2)) ) as
      (u & v & -> & Hv & Hm); [|exact Hs'|].
    { repeat rewrite ?length_app, ?length_cons in Hn. clear -Hn. lia. }
    exists (w ++ DQUOTE :: w2 ++ DQUOTE :: u), v.
    repeat split; [now rewrite <- !app_assoc; cbn; rewrite <- !app_assoc
                  |exact Hv|].
    replace (idx + length (w ++ DQUOTE :: w2 ++ DQUOTE :: u))%nat
      with (S (S (idx + length w) + length w2) + length u)%nat
      by (repeat rewrite ?length_app, ?length_cons; lia).
    apply (MStarStep _ _ {| endIndex := S (S (idx + length w) + length w2);
                            rest := u ++ v; captures := caps |});
      [|cbn [endIndex]; lia|exact Hm].
    apply MAltL. unfold doubleQuotedSpan. cbn [cat foldr].
    eapply MSeq; [exact (star_class_intro _ _ w _ idx caps Hw)|].
    eapply MSeq; [apply char_intro|].
    eapply MSeq; [exact (star_class_intro _ _ w2 _ _ caps Hw2)|].
    eapply MSeq; [apply char_intro|].
    eapply MSeq; [apply MStarNil|apply MEmpty].
  - rewrite quoteRun_app, (quoteRun_notQuote Outside w) in Hrun by easy.
    change (quoteRun Outside (SQUOTE :: r')) with (quoteRun InSingle r')
      in Hrun.
    destruct (closeSingle r' Hrun) as (w2 & s' & -> & Hw2 & Hs').
    destruct (IH s' (S (S (idx + length w) + length w2)) ) as
      (u & v & -> & Hv & Hm); [|exact Hs'|].
    { repeat rewrite ?length_app, ?length_cons in Hn. clear -Hn. lia. }
    exists (w ++ SQUOTE :: w2 ++ SQUOTE :: u), v.
    repeat split; [now rewrite <- !app_assoc; cbn; rewrite <- !app_assoc
                  |exact Hv|].
    replace (idx + length (w ++ SQUOTE :: w2 ++ SQUOTE :: u))%nat
      with (S (S (idx + length w) + length w2) + length u)%nat
      by (repeat rewrite ?length_app, ?length_cons; lia).
    apply (MStarStep _ _ {| endIndex := S (S (idx + length w) + length w2);
                            rest := u ++ v; captures := caps |});
      [|cbn [endIndex]; lia|exact Hm].
    apply MAltR. unfold singleQuotedSpan. cbn [cat foldr].
    eapply MSeq; [exact (star_class_intro _ _ w _ idx caps Hw)|].
    eapply MSeq; [apply char_intro|].
    eapply MSeq; [exact (star_class_intro _ _ w2 _ _ caps Hw2)|].
    eapply MSeq; [apply char_intro|].
    eapply MSeq; [apply MStarNil|apply MEmpty].
Qed.

Lemma closes_Matches s (idx : nat) caps :
  closes s = true ->
  exists y,
    Matches quotesClosed {| endIndex := idx; rest := s; captures := caps |} y.
Proof.
  unfold closes. intros H.
  destruct (quoteRun Outside s) eqn:Hrun; try discriminate.
  destruct (spans_intro (length s) s idx caps (le_n _) Hrun)
    as (u & v & -> & Hv & Hm).
  eexists. unfold quotesClosed. cbn [cat foldr].
  eapply MSeq; [exact Hm|].
  eapply MSeq.
  { rewrite <- (app_nil_r v) at 1.
    exact (star_class_intro _ _ v [] _ caps Hv). }
  eapply MSeq; [now apply MEol|apply MEmpty].
Qed.

(** The lookahead of the separator succeeds exactly on a text whose quotes
    are all closed. *)
Lemma lookahead_closes x :
  matcher quotesClosed x Some <> None <-> closes (rest x) = true.
Proof.
  rewrite (matcher_Some _ _ quotesClosed_plain). split.
  - intros [y Hy]. eapply Matches_quotesClosed_closes, Hy.
  - destruct x as [idx s caps]. apply closes_Matches.
Qed.

(** *** The separator at one place *)

Lemma matchAt_pairSeparator_tries (q : nat) (c : N) s :
  matchAt pairSeparator q (c :: s)
  = if COMMA =? c
    then firstSome afterComma (starTries isWhiteSpace (S q) [] s)
    else None.
Proof.
  transitivity
    (if COMMA =? c
     then matcher (Star Space)
            {| endIndex := S q; rest := s; captures := [] |} afterComma
     else None).
  - unfold matchAt. rewrite pairSeparator_pattern.
    cbn [cat foldr matcher charMatcher rest nCaptures pairSeparator
         replicate].
    destruct (COMMA =? c); reflexivity.
  - destruct (COMMA =? c); [|reflexivity].
    exact (star_space _ afterComma).
Qed.

Lemma afterComma_closes y :
  closes (rest y) = true ->
  exists z, afterComma y = Some z /\ endIndex z = endIndex y.
Proof.
  intros H. apply lookahead_closes in H. unfold afterComma.
  cbn [matcher]. destruct (matcher quotesClosed y Some); [|contradiction].
  eexists. split; reflexivity.
Qed.

Lemma afterComma_open y : closes (rest y) = false -> afterComma y = None.
Proof.
  intros H. unfold afterComma. cbn [matcher].
  destruct (matcher quotesClosed y Some) eqn:E; [|reflexivity].
  assert (closes (rest y) = true) by (apply lookahead_closes; congruence).
  congruence.
Qed.

Lemma blankLength_app w s :
  Blank w -> stops isWhiteSpace s -> blankLength (w ++ s) = length w.
Proof.
  intros Hw Hs. unfold blankLength. rewrite trimStart_blank_app by assumption.
  assert (trimStart s = s) as ->.
  { destruct s as [|c s]; [reflexivity|]. simpl in *. now rewrite Hs. }
  rewrite length_app. lia.
Qed.

Lemma stops_trimStart s : stops isWhiteSpace (trimStart s).
Proof.
  destruct (trimStart s) as [|c t] eqn:E; [exact I|].
  exact (trimStart_head _ _ _ E).
Qed.

(** A comma followed by a text whose quotes are closed is a separator, with
    all the white space after it. *)
Lemma separator_here (q : nat) s :
  closes s = true ->
  exists y, matchAt pairSeparator q (COMMA :: s) = Some y
            /\ endIndex y = (S q + blankLength s)%nat.
Proof.
  intros Hc. rewrite matchAt_pairSeparator_tries. cbn [N.eqb COMMA Pos.eqb].
  destruct (trimStart_suffix s) as (a & Ha & Hs).
  pose proof (stops_trimStart s) as Hstop.
  rewrite Hs in Hc |- *. rewrite closes_blank_app in Hc by assumption.
  destruct (starTries_app isWhiteSpace (S q) [] a (trimStart s) Ha) as [l ->].
  rewrite starTries_stops by assumption. cbn [app firstSome].
  destruct (afterComma_closes
              {| endIndex := S q + length a; rest := trimStart s;
                 captures := [] |} Hc) as (z & -> & Hz).
  exists z. split; [reflexivity|].
  rewrite Hz, blankLength_app by assumption. reflexivity.
Qed.

(** Nothing else is a separator. *)
Lemma no_separator_here (q : nat) (c : N) s :
  c <> COMMA \/ closes s = false -> matchAt pairSeparator q (c :: s) = None.
Proof.
  intros H. rewrite matchAt_pairSeparator_tries.
  destruct (N.eqb_spec COMMA c) as [<-|]; [|reflexivity].
  destruct H as [H|H]; [congruence|].
  apply firstSome_None, Forall_forall. intros y Hy.
  apply starTries_elem in Hy as (w & Hw & Hs & _).
  apply afterComma_open. rewrite Hs in H.
  now rewrite closes_blank_app in H.
Qed.

(** *** The pairs of a body *)

Lemma blankLength_cons (c : N) s :
  blankLength (c :: s)
  = if isWhiteSpace c then S (blankLength s) else 0%nat.
Proof.
  unfold blankLength. cbn [trimStart].
  destruct (isWhiteSpace c); [|rewrite Nat.sub_diag; reflexivity].
  destruct (trimStart_suffix s) as (a & _ & Hs).
  apply (f_equal length) in Hs. rewrite length_app in Hs.
  rewrite length_cons. lia.
Qed.

Lemma splitFrom_splitPairs s :
  forall (q : nat) (cur : jsstring),
    splitFrom pairSeparator q 0 cur s = splitPairs false cur s
    /\ splitFrom pairSeparator q (blankLength s) cur s
       = splitPairs true cur s.
Proof.
  induction s as [|c s IH]; intros q cur; [split; reflexivity|].
  assert (splitFrom pairSeparator q 0 cur (c :: s)
          = splitPairs false cur (c :: s)) as H0.
  { cbn [splitFrom splitPairs andb].
    destruct (N.eqb_spec c COMMA) as [->|Hc].
    - destruct (closes s) eqn:Hcl; cbn [andb].
      + destruct (separator_here q s Hcl) as (y & -> & Hy).
        rewrite Hy. cbn [length].
        pose proof (blankLength_cons COMMA s) as _.
        assert (blankLength s <= length s)%nat as Hle
          by (unfold blankLength; lia).
        replace (Nat.min (S q + blankLength s) (q + S (length s)))
          with (S q + blankLength s)%nat by lia.
        replace (S q + blankLength s =? q)%nat with false
          by (symmetry; apply Nat.eqb_neq; lia).
        replace (S q + blankLength s - q - 1)%nat with (blankLength s) by lia.
        now rewrite (proj2 (IH (S q) [])).
      + rewrite no_separator_here by now right.
        apply (proj1 (IH (S q) _)).
    - rewrite no_separator_here by now left.
      apply (proj1 (IH (S q) _)). }
  split; [exact H0|].
  rewrite blankLength_cons. destruct (isWhiteSpace c) eqn:Hw.
  - cbn [splitFrom splitPairs andb]. rewrite Hw.
    apply (proj2 (IH (S q) cur)).
  - rewrite H0. cbn [splitPairs andb]. now rewrite Hw.
Qed.

(** The pairs of a record body are those of [splitPairs]: the body is cut at
    every comma after which all quotes are closed, and the white space that
    follows such a comma is dropped. *)
Theorem pairs_of_a_body (body : jsstring) :
  RegExp.split body pairSeparator = splitPairs false [] body.
Proof.
  destruct body as [|c body]; [reflexivity|].
  apply (proj1 (splitFrom_splitPairs (c :: body) 0 [])).
Qed.

End Separator.

(** ** The card of a node *)

Section Card.

Import NodeCard.

Variable numberToString : number -> jsstring.

Implicit Types (node : Props) (ds : list NodeDetail).

Lemma rows_app ds1 ds2 :
  rows numberToString (ds1 ++ ds2)
  = (let* r1 := rows numberToString ds1 in
     let* r2 := rows numberToString ds2 in
     Ok (r1 ++ r2)).
Proof.
  induction ds1 as [|d ds1 IH]; cbn [app rows].
  - now destruct (rows numberToString ds2).
  - destruct (valueText numberToString d); cbn [bind]; [|reflexivity].
    rewrite IH. destruct (rows numberToString ds1); cbn [bind]; [|reflexivity].
    now destruct (rows numberToString ds2).
Qed.

Lemma rows_defined ds :
  Forall (fun d => is_Some (value d)) ds ->
  exists r, rows numberToString ds = Ok r /\ length r = length ds.
Proof.
  induction 1 as [|d ds [v Hv] _ (r & Hr & Hl)]; cbn [rows].
  - exists []. auto.
  - unfold valueText. rewrite Hv, Hr. cbn [bind].
    eexists. split; [reflexivity|]. simpl. now rewrite Hl.
Qed.

Lemma whenTruthy_defined node (key l : string) :
  Forall (fun d => is_Some (value d)) (whenTruthy node key l)
  /\ (length (whenTruthy node key l) <= 1)%nat.
Proof.
  unfold whenTruthy, truthyProp.
  destruct (getProp node (js key)) as [v|] eqn:E; [|split; [constructor|simpl; lia]].
  destruct (truthy v); split; repeat constructor; cbn; eauto.
Qed.

Lemma yesNo_defined node (key l : string) :
  Forall (fun d => is_Some (value d)) (yesNo node key l)
  /\ (length (yesNo node key l) <= 1)%nat.
Proof.
  unfold yesNo. destruct (isDefined _); split; repeat constructor; cbn; eauto.
Qed.

Lemma optionalDetails_defined node :
  Forall (fun d => is_Some (value d)) (optionalDetails node)
  /\ (length (optionalDetails node) <= 8)%nat.
Proof.
  unfold optionalDetails.
  pose proof (whenTruthy_defined node "cipher" "Cipher") as [A1 B1].
  pose proof (whenTruthy_defined node "uuid" "UUID") as [A2 B2].
  pose proof (whenTruthy_defined node "network" "Network") as [A3 B3].
  pose proof (whenTruthy_defined node "ws-path" "WS Path") as [A4 B4].
  pose proof (yesNo_defined node "tls" "TLS") as [A5 B5].
  pose proof (yesNo_defined node "udp-relay" "UDP Relay") as [A6 B6].
  pose proof (whenTruthy_defined node "password" "Password") as [A7 B7].
  assert (Forall (fun d => is_Some (value d))
            (if isDefined (getProp node (js "alterId"))
             then [detail "Alter ID" (getProp node (js "alterId"))] else [])
          /\ (length (if isDefined (getProp node (js "alterId"))
                      then [detail "Alter ID" (getProp node (js "alterId"))]
                      else []) <= 1)%nat) as [A8 B8].
  { destruct (getProp node (js "alterId")) eqn:E; cbn; split;
      repeat constructor; cbn; eauto. }
  split.
  - repeat (apply Forall_app; split; [assumption|]). assumption.
  - rewrite !length_app. lia.
Qed.

Lemma primaryDetails_rows node :
  (exists r, rows numberToString (primaryDetails node) = Ok r)
  <-> is_Some (node !! js "name") /\ is_Some (node !! js "type")
      /\ is_Some (node !! js "server") /\ is_Some (node !! js "port").
Proof.
  unfold primaryDetails, getProp. cbn [rows valueText value detail].
  split.
  - intros [r Hr].
    destruct (node !! js "name"); [|discriminate].
    destruct (node !! js "type"); [|discriminate].
    destruct (node !! js "server"); [|discriminate].
    destruct (node !! js "port"); [|discriminate].
    repeat split; eauto.
  - intros ([? ->] & [? ->] & [? ->] & [? ->]). cbn [bind]. eauto.
Qed.

(** The card of a node is drawn exactly when its four primary properties
    are defined: the text of an undefined one cannot be taken.  The card
    then has between four and twelve rows. *)
Theorem card_needs_the_required_fields node :
  (exists r, NodeCard numberToString node = Ok r)
  <-> is_Some (node !! js "name") /\ is_Some (node !! js "type")
      /\ is_Some (node !! js "server") /\ is_Some (node !! js "port").
Proof.
  unfold NodeCard, allDetails. rewrite rows_app.
  rewrite <- primaryDetails_rows.
  destruct (optionalDetails_defined node) as [Hopt _].
  destruct (rows_defined _ Hopt) as (r2 & -> & _).
  split.
  - intros [r Hr].
    destruct (rows numberToString (primaryDetails node)); [eauto|discriminate].
  - intros [r ->]. cbn [bind]. eauto.
Qed.

Lemma Complete_defined node :
  Complete node ->
  is_Some (node !! js "name") /\ is_Some (node !! js "type")
  /\ is_Some (node !! js "server") /\ is_Some (node !! js "port").
Proof.
  intros ((v1 & H1 & _) & (v2 & H2 & _) & (v3 & H3 & _) & H4).
  repeat split; eauto.
Qed.

Lemma card_of_complete node :
  Complete node ->
  exists r, NodeCard numberToString node = Ok r
            /\ (4 <= length r <= 12)%nat.
Proof.
  intros Hc. apply Complete_defined in Hc.
  apply primaryDetails_rows in Hc as [r1 H1].
  destruct (optionalDetails_defined node) as [Hopt Hlen].
  destruct (rows_defined _ Hopt) as (r2 & H2 & Hl2).
  assert (length r1 = 4%nat) as Hl1.
  { unfold primaryDetails in H1. cbn [rows] in H1.
    repeat match type of H1 with
           | context [valueText ?f ?d] =>
               destruct (valueText f d); cbn [bind] in H1; [|discriminate]
           end.
    now injection H1 as <-. }
  exists (r1 ++ r2). unfold NodeCard, allDetails.
  rewrite rows_app, H1, H2. cbn [bind]. split; [reflexivity|].
  rewrite length_app. lia.
Qed.

Lemma parseClashNodes_complete (configContent : jsstring)
  (records : list Props) :
  parseClashNodes configContent = Ok records -> Forall Complete records.
Proof.
  unfold parseClashNodes, scan.
  destruct (forOf scanLine _ initialState) as [st|] eqn:Hs; [|discriminate].
  intros [= <-]. eapply scan_from_complete; [exact Hs|constructor].
Qed.

(** Every node the parser returns can be drawn: its card has between four
    and twelve rows, and taking the text of its values never fails. *)
Theorem parsed_nodes_have_a_card (configContent : jsstring)
  (records : list Props) :
  parseClashNodes configContent = Ok records ->
  Forall (fun node =>
            exists r, NodeCard numberToString node = Ok r
                      /\ (4 <= length r <= 12)%nat) records.
Proof.
  intros H. apply parseClashNodes_complete in H.
  eapply Forall_impl; [exact H|]. apply card_of_complete.
Qed.

End Card.

Lemma card_needs_the_required_fields_witness :
  exists r, NodeCard.NodeCard (fun _ => js "0") Samples.nodeA = Ok r.
Proof.
  apply card_needs_the_required_fields.
  repeat split; eexists; vm_compute; reflexivity.
Defined.

Lemma parsed_nodes_have_a_card_witness :
  Forall (fun node =>
            exists r, NodeCard.NodeCard (fun _ => js "0") node = Ok r
                      /\ (4 <= length r <= 12)%nat)
         [Samples.nodeA; Samples.nodeB].
Proof.
  apply (parsed_nodes_have_a_card (fun _ => js "0") Samples.scenario).
  vm_compute. reflexivity.
Defined.

(** ** Fetching and showing *)

Section Handler.

Import Fetcher App.

Implicit Types (fetch : jsstring -> promise Response) (st : AppState).



(** Without a URL that starts with [http://] or [https://] nothing is
    asked of the network: the outcome is the same whatever [fetch] would
    answer, and it is one of the two messages about the URL. *)
Theorem no_request_without_http_url fetch1 fetch2
  (message1 message2 : jsstring) st :
  startsWith (js "http://") (url st) = false ->
  startsWith (js "https://") (url st) = false ->
  handleFetchNodes fetch1 message1 st = handleFetchNodes fetch2 message2 st
  /\ App.nodes (handleFetchNodes fetch1 message1 st) = []
  /\ (error (handleFetchNodes fetch1 message1 st) = Some enterUrl
      \/ error (handleFetchNodes fetch1 message1 st) = Some invalidUrl).
Proof.
  intros H1 H2. unfold handleFetchNodes, fetchClashConfig.
  cbn [setNodes setLoading setError url]. rewrite H1, H2. cbn [negb andb].
  destruct (eqb (trim (url st)) []); cbn; auto.
Qed.

Lemma no_request_without_http_url_witness :
  let st := {| url := js " https://example.com/clash.yaml"; App.nodes := [];
               loading := false; error := None; logged := [] |} in
  let down := fun _ : jsstring => Rejected (Thrown None) in
  let up := fun _ : jsstring =>
              Fulfilled {| ok := true; status := 200; statusText := js "OK";
                           text := Fulfilled Samples.scenario |} in
  handleFetchNodes down [] st = handleFetchNodes up [] st
  /\ App.nodes (handleFetchNodes down [] st) = []
  /\ (error (handleFetchNodes down [] st) = Some enterUrl
      \/ error (handleFetchNodes down [] st) = Some invalidUrl).
Proof.
  cbv zeta. apply no_request_without_http_url; reflexivity.
Defined.

End Handler.

(** ** Lines, one by one *)

Section Lines.

Implicit Types (st : ScanState) (line t : jsstring) (props : Props)
  (pre post : list jsstring).

Lemma no_dash_no_match t :
  startsWith (js "- {") t = false -> match_ t nodePattern = None.
Proof.
  intros H. destruct (match_ t nodePattern) as [arr|] eqn:E; [|reflexivity].
  apply nodePattern_grammar in E as (inner & -> & _). discriminate H.
Qed.

(** A blank line, a comment, and a list item that does not open a brace
    right after the dash (a record written over several lines, say) change
    nothing: no record, no warning, and the section stays as it is. *)
Theorem lines_that_are_no_record_are_skipped st line :
  trim line = []
  \/ startsWith (js "#") (trim line) = true
  \/ (startsWith (js "-") (trim line) = true
      /\ startsWith (js "- {") (trim line) = false) ->
  scanLine st line = Ok st.
Proof.
  intros H. unfold scanLine.
  assert (startsWith (js "proxies:") (trim line) = false
          /\ leavesSection (trim line) = false
          /\ startsWith (js "- {") (trim line) = false) as (-> & -> & Hm).
  { unfold leavesSection.
    destruct H as [->|[H|[H1 H2]]]; [repeat split| |].
    - destruct (trim line) as [|c t]; [discriminate|].
      change (js "#") with [35] in *. cbn [startsWith] in H.
      destruct (N.eqb_spec 35 c) as [<-|]; [|discriminate].
      repeat split.
    - rewrite (dash_not_header _ H1), H1, H2. repeat split. }
  rewrite (no_dash_no_match _ Hm). now destruct (inProxiesSection st).
Qed.

Lemma lines_that_are_no_record_are_skipped_witness :
  scanLine inside (js "  - name: n") = Ok inside.
Proof.
  apply lines_that_are_no_record_are_skipped.
  right. right. split; reflexivity.
Defined.

Lemma recordBody_nonempty (inner : jsstring) :
  inner <> [] -> recordBody inner <> [].
Proof.
  intros Hne. unfold recordBody.
  destruct (trimStart inner); [|discriminate].
  destruct (last inner) eqn:E; [discriminate|].
  now apply last_None in E.
Qed.

(** What a record line does inside the section. *)
Lemma scanLine_record st line props :
  inProxiesSection st = true -> recordProps line = Some props ->
  scanLine st line
  = Ok (if hasRequiredFields props then push st props
        else warn st props (trim line)).
Proof.
  intros Hin Hr. pose proof (recordProps_dash _ _ Hr) as Hd.
  unfold scanLine. unfold recordProps in Hr.
  rewrite (dash_not_header _ Hd), Hin, (dash_stays _ Hd).
  destruct (match_ (trim line) nodePattern) as [arr|] eqn:E; [|discriminate].
  apply nodePattern_grammar in E as (inner & _ & Hne & _ & ->).
  cbn [matched index bind lookup list_lookup mjoin option_join mbind
       option_bind] in *.
  replace (eqb (recordBody inner) []) with false
    by (symmetry; apply bool_decide_eq_false_2, recordBody_nonempty, Hne).
  cbn [negb].
  destruct (parseProps (Some (recordBody inner))) as [p|]; [|discriminate].
  injection Hr as ->. cbn [bind]. now destruct (hasRequiredFields props).
Qed.

(** A record line with its four required fields, met inside the section,
    yields one record, its properties, at its place in the result: right
    after the records of the lines before it, and followed by the records
    that the lines after it yield inside the section, which are those of
    the document made of [proxies:] and these lines. *)
Theorem complete_record_is_emitted_once pre post line st props :
  Forall (fun l => LF ∉ l) (pre ++ line :: post) ->
  scan pre = Ok st -> inProxiesSection st = true ->
  recordProps line = Some props -> Complete props ->
  exists after : list Props,
    parseClashNodes (joinLines pre) = Ok (nodes st)
    /\ parseClashNodes (joinLines (js "proxies:" :: post)) = Ok after
    /\ parseClashNodes (joinLines (pre ++ [line])) = Ok (nodes st ++ [props])
    /\ parseClashNodes (joinLines (pre ++ line :: post))
       = Ok (nodes st ++ props :: after).
Proof.
  intros Hall Hpre Hin Hr Hc.
  pose proof Hall as H'. apply Forall_app in H' as [Hlpre Hlpost].
  apply Forall_cons in Hlpost as [Hlline Hlpost].
  assert (scanLine st line = Ok (push st props)) as Hline.
  { rewrite (scanLine_record st line props Hin Hr).
    apply hasRequiredFields_Complete in Hc. now rewrite Hc. }
  destruct (scan_from_total post (push st props)) as [st2 H2].
  destruct (scan_from_fresh _ _ _ H2) as (t & Ht & Hn & _).
  assert (fresh (push st props) = setSection initialState true) as Hfresh.
  { unfold fresh, push, setSection. cbn. now rewrite Hin. }
  rewrite Hfresh in Ht.
  exists (nodes t). repeat split.
  - now apply parseClashNodes_scan.
  - apply parseClashNodes_scan.
    + constructor; [|exact Hlpost].
      apply (bool_decide_unpack _). vm_compute. exact I.
    + unfold scan. cbn [forOf].
      change (scanLine initialState (js "proxies:"))
        with (Ok (setSection initialState true)).
      exact Ht.
  - rewrite parseClashNodes_joinLines
      by (apply Forall_app; split; [exact Hlpre|now constructor]).
    unfold scan in *. rewrite forOf_app, Hpre. cbn [bind forOf].
    now rewrite Hline.
  - rewrite parseClashNodes_joinLines by assumption.
    unfold scan in *. rewrite forOf_app, Hpre. cbn [bind forOf].
    rewrite Hline. cbn [bind]. rewrite H2. cbn [bind].
    rewrite Hn. cbn [push nodes]. now rewrite <- app_assoc.
Qed.

Lemma complete_record_is_emitted_once_witness :
  exists after : list Props,
    parseClashNodes (joinLines [js "proxies:"; recordLine bodyA])
    = Ok (nodes {| nodes := [nodeA]; inProxiesSection := true;
                   console := [] |})
    /\ parseClashNodes (joinLines (js "proxies:" :: [recordLine bodyB]))
       = Ok after
    /\ parseClashNodes
         (joinLines ([js "proxies:"; recordLine bodyA]
                     ++ [recordLine bodyFull]))
       = Ok (nodes {| nodes := [nodeA]; inProxiesSection := true;
                      console := [] |} ++ [nodeFull])
    /\ parseClashNodes
         (joinLines ([js "proxies:"; recordLine bodyA]
                     ++ recordLine bodyFull :: [recordLine bodyB]))
       = Ok (nodes {| nodes := [nodeA]; inProxiesSection := true;
                      console := [] |} ++ nodeFull :: after).
Proof.
  apply complete_record_is_emitted_once.
  - apply (bool_decide_unpack _). vm_compute. exact I.
  - vm_compute. reflexivity.
  - reflexivity.
  - vm_compute. reflexivity.
  - apply hasRequiredFields_Complete. vm_compute. reflexivity.
Defined.

(** Every entry of the console comes from a record line that lacks a
    required field, and no line gives both a record and an entry. *)
Lemma console_entries_are_incomplete (lines : list jsstring) st :
  scan lines = Ok st ->
  Forall (fun entry =>
            ~ Complete entry.1
            /\ exists line, line ∈ lines /\ entry.2 = trim line
                            /\ recordProps line = Some entry.1) (console st)
  /\ (length (nodes st) + length (console st) <= length lines)%nat.
Proof.
  unfold scan. set (Q := fun (ls : list jsstring) (entry : Props * jsstring) =>
    ~ Complete entry.1
    /\ exists line, line ∈ ls /\ entry.2 = trim line
                    /\ recordProps line = Some entry.1).
  assert (forall (ls : list jsstring) (s0 s1 : ScanState),
             forOf scanLine ls s0 = Ok s1 ->
             (forall l, l ∈ ls -> l ∈ lines) ->
             Forall (Q lines) (console s0) ->
             Forall (Q lines) (console s1)
             /\ (length (nodes s1) + length (console s1)
                 <= length (nodes s0) + length (console s0) + length ls)%nat)
    as Hinv.
  { induction ls as [|l ls IH]; intros s0 s1; cbn [forOf].
    - intros [= <-] _ H. split; [exact H|lia].
    - destruct (scanLine_effect s0 l) as (s' & -> & He). cbn [bind].
      intros Hrest Hsub H0.
      assert (Forall (Q lines) (console s')
              /\ (length (nodes s') + length (console s')
                  <= length (nodes s0) + length (console s0) + 1)%nat)
        as [H' Hlen].
      { destruct He; cbn [setSection push warn nodes console];
          rewrite ?length_app; cbn [length]; (split; [|lia]);
          try assumption.
        apply Forall_app. split; [assumption|].
        constructor; [|constructor]. split; [assumption|].
        exists l. split; [apply Hsub; left|]. auto. }
      destruct (IH s' s1 Hrest) as [HQ Hl]; [|exact H'|].
      { intros l' Hl'. apply Hsub. now right. }
      split; [exact HQ|]. cbn [length]. lia. }
  intros Hs. destruct (Hinv lines initialState st Hs) as [HQ Hl];
    [auto|constructor|].
  split; [exact HQ|]. cbn in Hl. lia.
Qed.

(** What a line adds to the console, in every state. *)
Lemma scanLine_console st line :
  exists st',
    scanLine st line = Ok st'
    /\ console st' = console st ++ warningOf (inProxiesSection st) line
    /\ (warningOf (inProxiesSection st) line <> [] -> nodes st' = nodes st).
Proof.
  unfold warningOf. destruct (recordProps line) as [props|] eqn:Hr.
  - destruct (inProxiesSection st) eqn:Hin.
    + rewrite (scanLine_record st line props Hin Hr). eexists.
      split; [reflexivity|].
      destruct (hasRequiredFields props); cbn [andb negb warn push console
                                                nodes];
        [rewrite app_nil_r|]; split; congruence.
    + pose proof (recordProps_dash _ _ Hr) as Hd.
      unfold scanLine. rewrite (dash_not_header _ Hd), Hin.
      eexists. split; [reflexivity|]. cbn [andb]. rewrite app_nil_r.
      split; congruence.
  - destruct (scanLine_effect st line) as (st' & Hs & He).
    exists st'. split; [exact Hs|]. rewrite app_nil_r.
    split; [|congruence].
    destruct He; cbn [setSection console]; congruence.
Qed.

(** What the scan writes with [console.warn], line after line: the scan of
    no line writes nothing, and one more line adds the entry of
    [warningOf], that is, the properties and the trimmed text of the line
    when it is a record line that fails the check of the required fields and
    is met inside the section, and nothing otherwise; a line that adds an
    entry adds no record. *)
Theorem warnings_report_incomplete_records pre line st :
  scan pre = Ok st ->
  exists st',
    scan (pre ++ [line]) = Ok st'
    /\ console st' = console st ++ warningOf (inProxiesSection st) line
    /\ (warningOf (inProxiesSection st) line <> [] -> nodes st' = nodes st).
Proof.
  intros Hpre. destruct (scanLine_console st line) as (st' & Hs & Hc & Hn).
  exists st'. split; [|auto].
  unfold scan in *. rewrite forOf_app, Hpre. cbn [bind forOf].
  now rewrite Hs.
Qed.

Lemma warnings_report_incomplete_records_witness :
  exists st',
    scan ([js "proxies:"; recordLine bodyFull] ++ [recordLine bodyNoServer])
    = Ok st'
    /\ console st'
       = console {| nodes := [nodeFull]; inProxiesSection := true;
                    console := [] |}
         ++ warningOf
              (inProxiesSection {| nodes := [nodeFull];
                                   inProxiesSection := true;
                                   console := [] |})
              (recordLine bodyNoServer)
    /\ (warningOf
          (inProxiesSection {| nodes := [nodeFull]; inProxiesSection := true;
                               console := [] |})
          (recordLine bodyNoServer) <> [] ->
        nodes st'
        = nodes {| nodes := [nodeFull]; inProxiesSection := true;
                   console := [] |}).
Proof.
  apply warnings_report_incomplete_records. vm_compute. reflexivity.
Defined.

(** On that document the console holds the one entry of the record without
    a server. *)
Remark warning_of_the_record_without_server :
  warningOf true (recordLine bodyNoServer)
  = [(record [("name", str "n"); ("type", str "t"); ("port", num 1)]%string,
      js "- { name: n, type: t, port: 1 }")].
Proof. vm_compute. reflexivity. Qed.

End Lines.

(** ** Well-formed pairs, blank ports, and the fetcher *)

Section WellFormed.

Implicit Types (s t key value cur : jsstring) (props : Props) (c : N).

Lemma splitLoop_char_app c s t cur :
  splitLoop [c] 0 cur (s ++ c :: t)
  = splitLoop [c] 0 cur s ++ splitLoop [c] 0 [] t.
Proof.
  revert cur. induction s as [|a s IH]; intros cur.
  - cbn [app splitLoop startsWith]. now rewrite N.eqb_refl.
  - cbn [app splitLoop startsWith].
    destruct (c =? a); cbn [andb length Nat.sub]; rewrite IH; reflexivity.
Qed.

(** A pair [key: value] whose key and value are trimmed and hold no colon
    stores the coerced value under the key, and touches no other
    property. *)
Theorem well_formed_pair_is_stored props key value :
  KeyShape key -> COLON ∉ value -> trim value = value ->
  parsePair props (key ++ js ": " ++ value)
  = Ok (<[key := coerce key (stripQuotes value)]> props).
Proof.
  intros (Hk & Hc & Hp) Hv Ht. unfold parsePair, splitLimit, JsString.split.
  change (js ": ") with [COLON; 32]. cbn [app].
  assert (COLON ∉ 32 :: value) as Hv'.
  { intros [E|H]%elem_of_cons; [discriminate E|contradiction]. }
  rewrite splitLoop_char_app, (splitLoop_no_separator COLON key [] Hc),
    (splitLoop_no_separator COLON (32 :: value) [] Hv').
  cbn [app firstn length Nat.eqb trimAt lookup list_lookup bind]. rewrite Hk.
  assert (trim (32 :: value) = value) as ->.
  { rewrite <- Ht at 2. apply trim_padded. exists [32], [].
    repeat split; [repeat constructor|constructor|now rewrite app_nil_r]. }
  unfold setProp, eqb. now rewrite (bool_decide_eq_false_2 _ Hp).
Qed.

Lemma well_formed_pair_is_stored_witness :
  parsePair (record [("name", str "n")]%string)
    (js "port" ++ js ": " ++ js "443")
  = Ok (<[js "port" := coerce (js "port") (stripQuotes (js "443"))]>
          (record [("name", str "n")]%string)).
Proof.
  apply well_formed_pair_is_stored.
  - split; [reflexivity|].
    split; apply (bool_decide_unpack _); vm_compute; exact I.
  - apply (bool_decide_unpack _). vm_compute. exact I.
  - reflexivity.
Defined.

Lemma trim_blank s : Blank s -> trim s = [].
Proof. intros H. unfold trim. now rewrite trimStart_blank. Qed.

(** A port that is empty or blank, in quotes or not, is stored as the
    number 0. *)
Theorem blank_port_is_zero s :
  Blank s ->
  coerce (js "port") s = VNumber (Finite false 0 0)
  /\ coerce (js "port") (stripQuotes (quoted s)) = VNumber (Finite false 0 0).
Proof.
  intros H. rewrite (proj1 (stripQuotes_layers s)).
  assert (coerce (js "port") s = VNumber (Finite false 0 0)) as E; [|auto].
  unfold coerce, Number. now rewrite (trim_blank s H).
Qed.

Lemma blank_port_is_zero_witness :
  coerce (js "port") (js " ") = VNumber (Finite false 0 0)
  /\ coerce (js "port") (stripQuotes (quoted (js " ")))
     = VNumber (Finite false 0 0).
Proof. apply blank_port_is_zero. repeat constructor. Defined.

End WellFormed.

Section Fetching.

Import Fetcher.

(** [fetchClashConfig] fulfils only with the text of a response that is
    [ok], to a URL that starts with [http://] or [https://]. *)
Theorem fetch_fulfils_only_on_ok (fetch : jsstring -> promise Response)
  (url content : jsstring) :
  fetchClashConfig fetch url = Fulfilled content
  <-> (startsWith (js "http://") url = true
       \/ startsWith (js "https://") url = true)
      /\ exists response,
           fetch url = Fulfilled response /\ ok response = true
           /\ text response = Fulfilled content.
Proof.
  unfold fetchClashConfig. split.
  - destruct (startsWith (js "http://") url),
      (startsWith (js "https://") url); cbn [negb andb];
      try discriminate;
      (destruct (fetch url) as [response|]; [|discriminate];
       destruct (ok response) eqn:Hok; cbn [negb]; [|discriminate];
       intros H; split; [auto|exists response; auto]).
  - intros (Hurl & response & -> & -> & ->).
    destruct Hurl as [-> | ->]; cbn [negb andb]; [reflexivity|].
    now rewrite andb_false_r.
Qed.

Lemma fetch_fulfils_only_on_ok_witness :
  fetchClashConfig
    (fun _ => Fulfilled {| ok := true; status := 200; statusText := js "OK";
                           text := Fulfilled Samples.scenario |})
    (js "https://example.com/clash.yaml")
  = Fulfilled Samples.scenario.
Proof.
  apply fetch_fulfils_only_on_ok. split; [now right|].
  eexists. repeat split.
Defined.

End Fetching.
